(** * s3-lock: a lock on the conditional writes of an object store

    A shallow embedding of [index.ts] (class [S3Lock], its default predicate
    and body generator) and of the two things it talks to: the S3 client,
    through which every request goes, and the JavaScript runtime
    ([JSON.parse], [setTimeout], [console.log]).

    An [async] function is embedded as a tree of requests ([Async]): each
    [await] on the client is a node whose continuation receives the settled
    outcome.  The same tree is then run in three ways: sequentially against
    an arbitrary client ([run], with the trace of what was issued), against a
    reference store with unique version tags ([S3Store]), and interleaved
    with a second call under a schedule ([run_schedule]).

    Numbers: [maxAttempts] and [timeout] are JavaScript numbers; they are
    taken here as integers ([Z]), the values a retry bound and a delay in
    milliseconds have. *)

From Stdlib Require Import ZArith QArith Lia Ascii String.
From stdpp Require Import base option list strings gmap pretty.
From Equations Require Import Equations.

#[local] Set Warnings "-register-all".
Local Open Scope Z_scope.
Local Open Scope string_scope.
Local Open Scope list_scope.

(** ** JavaScript values the code inspects *)

(** A thrown value.  The [catch] blocks test
    [error instanceof Error && 'name' in error && error.name === ...]:
    an [Error] instance always has a [name]; anything else that was thrown
    fails the [instanceof] test. *)
Inductive JsError : Type :=
| ErrorObject (name message : string)
| ThrownValue (description : string).

(** A JavaScript number: a double is a rational, an infinity or [NaN]. *)
Inductive JsNumber : Type :=
| Finite (q : Q)
| Infinite (negative : bool)
| NaN.

(** The result of [JSON.parse]. *)
Inductive JsonValue : Type :=
| JNull
| JBool (b : bool)
| JNumber (x : JsNumber)
| JString (s : string)
| JArray (items : list JsonValue)
| JObject (fields : list (string * JsonValue)).

(** A property of an object literal: not there, there with value
    [undefined] (or [null]; [??] does not tell them apart), or there with a
    value.  The [in] operator tells the first from the other two. *)
Inductive JsProp (A : Type) : Type :=
| Absent
| Undefined
| Present (a : A).
Arguments Absent {A}.
Arguments Undefined {A}.
Arguments Present {A} a.

(** The outcome of a settled promise. *)
Inductive Settled (A : Type) : Type :=
| Fulfilled (a : A)
| Rejected (e : JsError).
Arguments Fulfilled {A} a.
Arguments Rejected {A} e.

(** The double quote, for the JSON texts below. *)
Definition dq : string := String "034"%char "".

(** The runtime's [JSON.parse], which the default predicate calls. *)
Class JsonRuntime : Type := {
  JSON_parse : string -> Settled JsonValue
}.

(** [JSON.stringify({ locked: b })]. *)
Definition JSON_stringify_locked (b : bool) : string :=
  "{" +:+ dq +:+ "locked" +:+ dq +:+ ":" +:+ (if b then "true" else "false") +:+ "}".

(** [v.locked] for a parsed value [v] that is not [null]: the field of an
    object, [undefined] ([None]) when the object has none or when [v] is a
    boolean, a number, a string or an array. *)
Fixpoint assoc_field (k : string) (fields : list (string * JsonValue)) : option JsonValue :=
  match fields with
  | [] => None
  | (k', v) :: rest => if String.eqb k k' then Some v else assoc_field k rest
  end.

Definition member (k : string) (v : JsonValue) : option JsonValue :=
  match v with
  | JObject fields => assoc_field k fields
  | _ => None
  end.

(** [v?.k]: [undefined] on [null], the member otherwise. *)
Definition optional_member (k : string) (v : JsonValue) : option JsonValue :=
  match v with
  | JNull => None
  | _ => member k v
  end.

(** JavaScript truthiness, [None] being [undefined]. *)
Definition truthy (v : option JsonValue) : bool :=
  match v with
  | None => false
  | Some JNull => false
  | Some (JBool b) => b
  | Some (JNumber (Finite q)) => negb (Qeq_bool q 0)
  | Some (JNumber (Infinite _)) => true
  | Some (JNumber NaN) => false
  | Some (JString s) => negb (String.eqb s "")
  | Some (JArray _) => true
  | Some (JObject _) => true
  end.

(** ** The S3 client's commands *)

Record GetObjectInput : Type := {
  get_Bucket : string;
  get_Key : string
}.

(** [Body] is the text [transformToString] yields. *)
Record GetObjectCommandOutput : Type := {
  Body : option string;
  ETag : option string
}.

Record PutObjectInput : Type := {
  put_Bucket : string;
  put_Key : string;
  put_IfMatch : option string;
  put_IfNoneMatch : option string;
  put_Body : string
}.

Record PutObjectCommandOutput : Type := {
  put_ETag : option string
}.

(** ** Asynchronous code *)

(** An [async] body: it returns, throws, or awaits the client, a timer or
    the console and goes on with what it got. *)
Inductive Async (A : Type) : Type :=
| Return (a : A)
| Throw (e : JsError)
| SendGet (req : GetObjectInput) (k : Settled GetObjectCommandOutput -> Async A)
| SendPut (req : PutObjectInput) (k : Settled PutObjectCommandOutput -> Async A)
| SetTimeout (ms : Z) (k : Async A)
| ConsoleLog (msg : string) (k : Async A).
Arguments Return {A} a.
Arguments Throw {A} e.
Arguments SendGet {A} req k.
Arguments SendPut {A} req k.
Arguments SetTimeout {A} ms k.
Arguments ConsoleLog {A} msg k.

Fixpoint Async_bind {A B : Type} (f : A -> Async B) (p : Async A) : Async B :=
  match p with
  | Return a => f a
  | Throw e => Throw e
  | SendGet req k => SendGet req (fun r => Async_bind f (k r))
  | SendPut req k => SendPut req (fun r => Async_bind f (k r))
  | SetTimeout ms k => SetTimeout ms (Async_bind f k)
  | ConsoleLog msg k => ConsoleLog msg (Async_bind f k)
  end.

#[global] Instance Async_mret : MRet Async := @Return.
#[global] Instance Async_mbind : MBind Async := @Async_bind.

(** [try { p } catch (error) { h error }]. *)
Fixpoint try_catch {A : Type} (p : Async A) (h : JsError -> Async A) : Async A :=
  match p with
  | Return a => Return a
  | Throw e => h e
  | SendGet req k => SendGet req (fun r => try_catch (k r) h)
  | SendPut req k => SendPut req (fun r => try_catch (k r) h)
  | SetTimeout ms k => SetTimeout ms (try_catch k h)
  | ConsoleLog msg k => ConsoleLog msg (try_catch k h)
  end.

Definition settle {A : Type} (r : Settled A) : Async A :=
  match r with
  | Fulfilled a => Return a
  | Rejected e => Throw e
  end.

(** [await this.s3Client.send(new GetObjectCommand(req))] and the same for
    [PutObjectCommand]. *)
Definition send_get (req : GetObjectInput) : Async GetObjectCommandOutput :=
  SendGet req settle.

Definition send_put (req : PutObjectInput) : Async PutObjectCommandOutput :=
  SendPut req settle.

(** [await new Promise(r => setTimeout(r, ms))]. *)
Definition sleep (ms : Z) : Async unit := SetTimeout ms (Return tt).

Definition console_log (msg : string) : Async unit := ConsoleLog msg (Return tt).

(** ** index.ts *)

Definition LockNotAcquiredError : JsError :=
  ErrorObject "LockNotAcquiredError" "Failed to acquire lock".

(** The test of the three [catch] blocks. *)
Definition is_PreconditionFailed (error : JsError) : bool :=
  match error with
  | ErrorObject name _ => String.eqb name "PreconditionFailed"
  | ThrownValue _ => false
  end.

(** [LockedCompareAndSwapLock] and [LockedExistenceLock]: an object with one
    method. *)
Record LockHandle : Type := {
  release : string -> Async unit
}.

(** [CommonAcquireLock], [AcquireCompareAndSwapLock] and
    [AcquireExistenceLock] as the one object [acquireLock] receives. *)
Record AcquireLock : Type := {
  bucket : string;
  key : string;
  generateBody : option (Async string);
  conditional : JsProp (GetObjectCommandOutput -> Async bool);
  maxAttempts : option Z;
  timeout : option Z
}.

Record InitializeLockFile : Type := {
  init_bucket : string;
  init_key : string
}.

Definition defaultConditional `{JsonRuntime} (props : GetObjectCommandOutput) : Async bool :=
  parsed ← settle (JSON_parse (default "{}" (Body props)));
  Return (negb (truthy (optional_member "locked" parsed))).

Definition defaultGenerateBody : Async string :=
  Return (JSON_stringify_locked true).

Definition isCompareAndSwapLock (lock : AcquireLock) : bool :=
  match conditional lock with
  | Absent => false
  | _ => true
  end.

(** [a ?? b] on a property. *)
Definition nullish {A : Type} (p : JsProp A) (d : A) : A :=
  match p with
  | Present a => a
  | _ => d
  end.

Module S3Lock.

Definition initializeLockFile (props : InitializeLockFile) : Async unit :=
  try_catch
    (_ ← send_put {| put_Bucket := init_bucket props;
                     put_Key := init_key props;
                     put_IfMatch := None;
                     put_IfNoneMatch := None;
                     put_Body := JSON_stringify_locked false |};
     Return tt)
    (fun error =>
       if is_PreconditionFailed error then Throw LockNotAcquiredError
       else Throw error).

(** The object both branches of [acquireLock] return. *)
Definition locked (bucket key : string) (etag : option string) : LockHandle :=
  {| release := fun newBody =>
       _ ← send_put {| put_Bucket := bucket;
                       put_Key := key;
                       put_IfMatch := etag;
                       put_IfNoneMatch := None;
                       put_Body := newBody |};
       Return tt |}.

(** One pass through the body of the [while] loop: [Some] of the handle
    when it reaches [return], [None] when it reaches [continue]. *)
Definition cas_attempt (bucket key : string) (generateBody : Async string)
    (conditional : GetObjectCommandOutput -> Async bool) (timeout : Z)
  : Async (option LockHandle) :=
  _ ← console_log ("Compare and swap lock: Writing to " +:+ bucket +:+ " " +:+ key);
  getLatestETag ← send_get {| get_Bucket := bucket; get_Key := key |};
  ok ← conditional getLatestETag;
  if negb ok then
    _ ← sleep timeout;
    Return None
  else
    try_catch
      (body ← generateBody;
       resp ← send_put {| put_Bucket := bucket;
                          put_Key := key;
                          put_IfMatch := ETag getLatestETag;
                          put_IfNoneMatch := None;
                          put_Body := body |};
       _ ← console_log "Compare and swap Lock acquired";
       Return (Some (locked bucket key (put_ETag resp))))
      (fun error =>
         if is_PreconditionFailed error then
           _ ← sleep timeout;
           Return None
         else Throw error).

(** [while (attempt-- > 0) { ... }] and the [throw] after it. *)
Equations? cas_loop (bucket key : string) (generateBody : Async string)
    (conditional : GetObjectCommandOutput -> Async bool) (timeout : Z)
    (attempt : Z) : Async LockHandle by wf (Z.to_nat attempt) lt :=
  cas_loop bucket key generateBody conditional timeout attempt
    with Z_gt_dec attempt 0 := {
    | left Hpos =>
        r ← cas_attempt bucket key generateBody conditional timeout;
        match r with
        | Some lock => Return lock
        | None => cas_loop bucket key generateBody conditional timeout (attempt - 1)
        end
    | right _ => Throw LockNotAcquiredError
    }.
Proof. lia. Qed.

Definition existence_lock (bucket key : string) (generateBody : Async string)
  : Async LockHandle :=
  try_catch
    (_ ← console_log ("Existence Lock: Writing to " +:+ bucket +:+ " " +:+ key);
     body ← generateBody;
     resp ← send_put {| put_Bucket := bucket;
                        put_Key := key;
                        put_IfMatch := None;
                        put_IfNoneMatch := Some "*";
                        put_Body := body |};
     _ ← console_log "Existence Lock acquired";
     Return (locked bucket key (put_ETag resp)))
    (fun error =>
       if is_PreconditionFailed error then Throw LockNotAcquiredError
       else Throw error).

Definition acquireLock `{JsonRuntime} (props : AcquireLock) : Async LockHandle :=
  let generateBody := default defaultGenerateBody (generateBody props) in
  if isCompareAndSwapLock props then
    let attempt := default 5 (maxAttempts props) in
    let timeout := default 5000 (timeout props) in
    let conditional := nullish (conditional props) defaultConditional in
    cas_loop (bucket props) (key props) generateBody conditional timeout attempt
  else
    existence_lock (bucket props) (key props) generateBody.

End S3Lock.

(** ** Running a call against a client *)

(** What [this.s3Client.send] answers, and what it leaves behind.  [W] is
    everything outside the calling code: the bucket and whatever other
    clients do to it between two requests. *)
Class S3Client (W : Type) : Type := {
  get_object : GetObjectInput -> W -> Settled GetObjectCommandOutput * W;
  put_object : PutObjectInput -> W -> Settled PutObjectCommandOutput * W
}.

(** What a call did, in order. *)
Inductive Event : Type :=
| EvGet (req : GetObjectInput) (resp : Settled GetObjectCommandOutput)
| EvPut (req : PutObjectInput) (resp : Settled PutObjectCommandOutput)
| EvTimeout (ms : Z)
| EvLog (msg : string).

Fixpoint run {W : Type} `{S3Client W} {A : Type} (p : Async A) (w : W)
  : Settled A * W * list Event :=
  match p with
  | Return a => (Fulfilled a, w, [])
  | Throw e => (Rejected e, w, [])
  | SendGet req k =>
      let '(resp, w1) := get_object req w in
      let '(res, w2, tr) := run (k resp) w1 in
      (res, w2, EvGet req resp :: tr)
  | SendPut req k =>
      let '(resp, w1) := put_object req w in
      let '(res, w2, tr) := run (k resp) w1 in
      (res, w2, EvPut req resp :: tr)
  | SetTimeout ms k =>
      let '(res, w2, tr) := run k w in
      (res, w2, EvTimeout ms :: tr)
  | ConsoleLog msg k =>
      let '(res, w2, tr) := run k w in
      (res, w2, EvLog msg :: tr)
  end.

Definition is_read (ev : Event) : bool :=
  match ev with EvGet _ _ => true | _ => false end.

Definition is_write (ev : Event) : bool :=
  match ev with EvPut _ _ => true | _ => false end.

Definition reads (tr : list Event) : list Event := List.filter is_read tr.
Definition writes (tr : list Event) : list Event := List.filter is_write tr.

(** A write to [(bucket, key)] that the store accepted. *)
Definition is_accepted_write (bucket key : string) (ev : Event) : bool :=
  match ev with
  | EvPut req (Fulfilled _) =>
      String.eqb (put_Bucket req) bucket && String.eqb (put_Key req) key
  | _ => false
  end.

Definition wrote_to (bucket key : string) (tr : list Event) : bool :=
  existsb (is_accepted_write bucket key) tr.

(** ** The object store *)

(** The store as the README quotes its documentation: [If-None-Match]
    uploads only if the key does not exist, [If-Match] only if the tag given
    is the object's, both answering 412 Precondition Failed otherwise.  Its
    version tags are those of the data model: every accepted write gets a
    tag no earlier write had. *)
Record S3Object : Type := {
  object_body : string;
  object_etag : string
}.

Record S3Store : Type := {
  objects : gmap (string * string) S3Object;
  accepted : nat
}.

Definition PreconditionFailed : JsError :=
  ErrorObject "PreconditionFailed" "At least one of the pre-conditions you specified did not hold".

Definition NoSuchKey : JsError :=
  ErrorObject "NoSuchKey" "The specified key does not exist.".

Definition fresh_etag (s : S3Store) : string := pretty (accepted s).

Definition store_write (req : PutObjectInput) (s : S3Store)
  : Settled PutObjectCommandOutput * S3Store :=
  (Fulfilled {| put_ETag := Some (fresh_etag s) |},
   {| objects := <[(put_Bucket req, put_Key req) :=
                     {| object_body := put_Body req; object_etag := fresh_etag s |}]>
                   (objects s);
      accepted := S (accepted s) |}).

Definition store_get (req : GetObjectInput) (s : S3Store)
  : Settled GetObjectCommandOutput * S3Store :=
  match objects s !! (get_Bucket req, get_Key req) with
  | Some o => (Fulfilled {| Body := Some (object_body o); ETag := Some (object_etag o) |}, s)
  | None => (Rejected NoSuchKey, s)
  end.

Definition store_put (req : PutObjectInput) (s : S3Store)
  : Settled PutObjectCommandOutput * S3Store :=
  match put_IfNoneMatch req, put_IfMatch req, objects s !! (put_Bucket req, put_Key req) with
  | Some _, _, Some _ => (Rejected PreconditionFailed, s)
  | Some _, _, None => store_write req s
  | None, Some tag, Some o =>
      if String.eqb (object_etag o) tag then store_write req s
      else (Rejected PreconditionFailed, s)
  | None, Some _, None => (Rejected NoSuchKey, s)
  | None, None, _ => store_write req s
  end.

#[global] Instance S3Store_client : S3Client S3Store := {
  get_object := store_get;
  put_object := store_put
}.

(** Every tag in the store was handed out by an earlier accepted write. *)
Definition store_wf (s : S3Store) : Prop :=
  forall k o, objects s !! k = Some o ->
    exists n : nat, object_etag o = pretty n /\ (n < accepted s)%nat.

Definition empty_store : S3Store := {| objects := ∅; accepted := 0 |}.

(** A bucket holding one object, written by an earlier client. *)
Definition store_with (bucket key body : string) : S3Store :=
  snd (store_write {| put_Bucket := bucket; put_Key := key; put_IfMatch := None;
                      put_IfNoneMatch := None; put_Body := body |} empty_store).

(** ** Two calls at once *)

(** A call gives up control at each [await] and nowhere else; what it does
    between two of them is one step against the store. *)
Definition step {W : Type} `{S3Client W} {A : Type} (p : Async A) (w : W) : Async A * W :=
  match p with
  | Return a => (Return a, w)
  | Throw e => (Throw e, w)
  | SendGet req k => let '(resp, w1) := get_object req w in (k resp, w1)
  | SendPut req k => let '(resp, w1) := put_object req w in (k resp, w1)
  | SetTimeout _ k => (k, w)
  | ConsoleLog _ k => (k, w)
  end.

Inductive Caller : Type := First | Second.

#[global] Instance Caller_eq_dec : EqDecision Caller.
Proof. solve_decision. Defined.

Fixpoint run_schedule {W : Type} `{S3Client W} {A B : Type}
    (schedule : list Caller) (p : Async A) (q : Async B) (w : W)
  : Async A * Async B * W :=
  match schedule with
  | [] => (p, q, w)
  | First :: rest => let '(p1, w1) := step p w in run_schedule rest p1 q w1
  | Second :: rest => let '(q1, w1) := step q w in run_schedule rest p q1 w1
  end.

Definition turns (c : Caller) (schedule : list Caller) : nat :=
  length (List.filter (fun c' => bool_decide (c' = c)) schedule).

Definition outcome {A : Type} (p : Async A) : option (Settled A) :=
  match p with
  | Return a => Some (Fulfilled a)
  | Throw e => Some (Rejected e)
  | _ => None
  end.

(** A call that has settled after at most [n] steps, whatever it is
    answered. *)
Fixpoint settles_within {A : Type} (n : nat) (p : Async A) {struct p} : Prop :=
  match p with
  | Return _ => True
  | Throw _ => True
  | SendGet _ k => match n with O => False | S m => forall r, settles_within m (k r) end
  | SendPut _ k => match n with O => False | S m => forall r, settles_within m (k r) end
  | SetTimeout _ k => match n with O => False | S m => settles_within m k end
  | ConsoleLog _ k => match n with O => False | S m => settles_within m k end
  end.

(** The places an existence lock can be at between two steps: before its
    log line or before its write ([Racing]); past an accepted write, with
    the handle in hand or about to be ([Won]); thrown out ([Lost]). *)
Definition existence_after_log (bucket key body : string) : Async LockHandle :=
  match S3Lock.existence_lock bucket key (Return body) with
  | ConsoleLog _ k => k
  | p => p
  end.

Inductive Racing (bucket key body : string) : Async LockHandle -> Prop :=
| racing_start : Racing bucket key body (S3Lock.existence_lock bucket key (Return body))
| racing_logged : Racing bucket key body (existence_after_log bucket key body).

Inductive Won (bucket key : string) : Async LockHandle -> Prop :=
| won_logging (etag : option string) :
    Won bucket key
      (ConsoleLog "Existence Lock acquired" (Return (S3Lock.locked bucket key etag)))
| won_returned (etag : option string) :
    Won bucket key (Return (S3Lock.locked bucket key etag)).

Inductive Lost : Async LockHandle -> Prop :=
| lost_thrown : Lost (Throw LockNotAcquiredError).

(** Where two existence locks on one key can be together. *)
Definition race_invariant (bucket key bodyA bodyB : string)
    (p q : Async LockHandle) (s : S3Store) : Prop :=
  (objects s !! (bucket, key) = None /\
   Racing bucket key bodyA p /\ Racing bucket key bodyB q) \/
  (objects s !! (bucket, key) <> None /\
   Won bucket key p /\ (Racing bucket key bodyB q \/ Lost q)) \/
  (objects s !! (bucket, key) <> None /\
   (Racing bucket key bodyA p \/ Lost p) /\ Won bucket key q).

(** ** Sample runtime *)

(** A [JSON.parse] that knows the texts the lock writes and rejects the
    rest, as the runtime rejects text that is not JSON. *)
Definition sample_parse (text : string) : Settled JsonValue :=
  if String.eqb text "{}" then Fulfilled (JObject [])
  else if String.eqb text (JSON_stringify_locked false)
       then Fulfilled (JObject [("locked", JBool false)])
  else if String.eqb text (JSON_stringify_locked true)
       then Fulfilled (JObject [("locked", JBool true)])
  else Rejected (ErrorObject "SyntaxError" "Unexpected token").

Definition sample_runtime : JsonRuntime := {| JSON_parse := sample_parse |}.

(** A client that answers from a script, for runs in which the store
    misbehaves or another client gets in between: each request takes the
    next answer; a request the script has no answer for fails. *)
Inductive Reply : Type :=
| GetReply (resp : Settled GetObjectCommandOutput)
| PutReply (resp : Settled PutObjectCommandOutput).

Definition NetworkingError : JsError :=
  ErrorObject "NetworkingError" "socket hang up".

Definition scripted_get (req : GetObjectInput) (script : list Reply)
  : Settled GetObjectCommandOutput * list Reply :=
  match script with
  | GetReply resp :: rest => (resp, rest)
  | _ :: rest => (Rejected NetworkingError, rest)
  | [] => (Rejected NetworkingError, [])
  end.

Definition scripted_put (req : PutObjectInput) (script : list Reply)
  : Settled PutObjectCommandOutput * list Reply :=
  match script with
  | PutReply resp :: rest => (resp, rest)
  | _ :: rest => (Rejected NetworkingError, rest)
  | [] => (Rejected NetworkingError, [])
  end.

Definition Scripted_client : S3Client (list Reply) := {|
  get_object := scripted_get;
  put_object := scripted_put
|}.

(** ** Vocabulary of the statements *)

(** The requests and the log lines of one attempt. *)
Definition cas_log (bucket key : string) : Event :=
  EvLog ("Compare and swap lock: Writing to " +:+ bucket +:+ " " +:+ key).

Definition cas_get (bucket key : string) : GetObjectInput :=
  {| get_Bucket := bucket; get_Key := key |}.

Definition cas_put (bucket key : string) (etag : option string) (body : string)
  : PutObjectInput :=
  {| put_Bucket := bucket; put_Key := key; put_IfMatch := etag;
     put_IfNoneMatch := None; put_Body := body |}.

Definition existence_log (bucket key : string) : Event :=
  EvLog ("Existence Lock: Writing to " +:+ bucket +:+ " " +:+ key).

Definition existence_put (bucket key body : string) : PutObjectInput :=
  {| put_Bucket := bucket; put_Key := key; put_IfMatch := None;
     put_IfNoneMatch := Some "*"; put_Body := body |}.

(** What the [catch] of the existence branch and of the initializer makes
    of an error. *)
Definition rethrown (e : JsError) : JsError :=
  if is_PreconditionFailed e then LockNotAcquiredError else e.

(** A predicate that only looks at what was read. *)
Definition pure_predicate (cond : GetObjectCommandOutput -> Async bool) : Prop :=
  forall o, exists c : bool, cond o = Return c.

(** A read that was answered and on whose answer the predicate said no. *)
Definition refused (cond : GetObjectCommandOutput -> Async bool) (ev : Event) : Prop :=
  match ev with
  | EvGet _ (Fulfilled o) => cond o = Return false
  | EvGet _ (Rejected _) => False
  | _ => True
  end.

(** The attempt counter and the predicate [acquireLock] ends up with. *)
Definition attempts_of (props : AcquireLock) : Z := default 5 (maxAttempts props).

Definition timeout_of (props : AcquireLock) : Z := default 5000 (timeout props).

Definition predicate_of `{JsonRuntime} (props : AcquireLock)
  : GetObjectCommandOutput -> Async bool :=
  nullish (conditional props) defaultConditional.

Definition generator_of (props : AcquireLock) : Async string :=
  default defaultGenerateBody (generateBody props).

Definition is_wait (ev : Event) : bool :=
  match ev with EvTimeout _ => true | _ => false end.

Definition waits (tr : list Event) : list Event := List.filter is_wait tr.

(** ** Sample calls *)

Definition sample_props (cond : JsProp (GetObjectCommandOutput -> Async bool))
    (attempts : option Z) : AcquireLock :=
  {| bucket := "locks"; key := "job"; generateBody := None;
     conditional := cond; maxAttempts := attempts; timeout := None |}.

(** The bucket after [initializeLockFile], and with the lock taken. *)
Definition unlocked_store : S3Store :=
  store_with "locks" "job" (JSON_stringify_locked false).

Definition locked_store : S3Store :=
  store_with "locks" "job" (JSON_stringify_locked true).

Definition never : GetObjectCommandOutput -> Async bool := fun _ => Return false.
Definition always : GetObjectCommandOutput -> Async bool := fun _ => Return true.





(** The last thing a successful call asked of the store is the write that
    acquired, and its handle is made with the tag of that write; [Inv] is
    whatever was known of the world before that write. *)
Definition acquired_by {W : Type} `{S3Client W} (Inv : W -> Prop)
    (bucket key : string) (w' : W) (h : LockHandle) (tr : list Event) : Prop :=
  exists (req : PutObjectInput) (out : PutObjectCommandOutput) (w0 : W)
         (tr0 : list Event) (msg : string),
    Inv w0 /\
    put_object req w0 = (Fulfilled out, w') /\
    put_Bucket req = bucket /\ put_Key req = key /\
    h = S3Lock.locked bucket key (put_ETag out) /\
    tr = tr0 ++ [EvPut req (Fulfilled out); EvLog msg].

(** The write [release] sends, for a handle made with tag [etag]. *)
Definition release_put (bucket key : string) (etag : option string) (newBody : string)
  : PutObjectInput :=
  {| put_Bucket := bucket; put_Key := key; put_IfMatch := etag;
     put_IfNoneMatch := None; put_Body := newBody |}.

(** What a caller of a promise that settled on [resp] sees when the result
    is dropped. *)
Definition surfaced (resp : Settled PutObjectCommandOutput) : Settled unit :=
  match resp with
  | Fulfilled _ => Fulfilled tt
  | Rejected e => Rejected e
  end.

(** Another client's unconditional write to the sample key. *)
Definition intruder : Async unit :=
  S3Lock.initializeLockFile {| init_bucket := "locks"; init_key := "job" |}.

(** The write [initializeLockFile] sends. *)
Definition initialize_put (props : InitializeLockFile) : PutObjectInput :=
  {| put_Bucket := init_bucket props; put_Key := init_key props;
     put_IfMatch := None; put_IfNoneMatch := None;
     put_Body := JSON_stringify_locked false |}.

(** ** Vocabulary of the further statements *)

(** A write the store accepted, to whatever key. *)
Definition is_accepted (ev : Event) : bool :=
  match ev with EvPut _ (Fulfilled _) => true | _ => false end.

Definition accepted_writes (tr : list Event) : list Event := List.filter is_accepted tr.

(** A request that was answered the way a store under contention answers:
    reads are served, and a write is only ever turned down for its
    precondition. *)
Definition well_answered (ev : Event) : Prop :=
  match ev with
  | EvGet _ (Rejected _) => False
  | EvPut _ (Rejected e) => is_PreconditionFailed e = true
  | _ => True
  end.

(** A predicate that answers or throws without asking the store anything,
    as the default predicate does. *)
Definition store_free (cond : GetObjectCommandOutput -> Async bool) : Prop :=
  forall o, (exists c : bool, cond o = Return c) \/ (exists e, cond o = Throw e).

(** A predicate that compares the text read with the unlocked marker. *)
Definition reads_unlocked : GetObjectCommandOutput -> Async bool :=
  fun o => Return (match Body o with
                   | Some text => String.eqb text (JSON_stringify_locked false)
                   | None => false
                   end).

(** Another client takes the lock between our read and our write; the
    second read shows its marker. *)
Definition beaten_script : list Reply :=
  [GetReply (Fulfilled {| Body := Some (JSON_stringify_locked false); ETag := Some "0" |});
   PutReply (Rejected PreconditionFailed);
   GetReply (Fulfilled {| Body := Some (JSON_stringify_locked true); ETag := Some "1" |})].

(** A generator that fails the way a store does when it is beaten to a
    write, and one that fails in a way of its own. *)
Definition OutOfIds : JsError := ErrorObject "RangeError" "no identifier left".

(** A body that is not JSON. *)
Definition garbled_store : S3Store := store_with "locks" "job" "locked".

(** The milliseconds a call spent waiting. *)
Definition waited (tr : list Event) : Z :=
  fold_right (fun ev total => match ev with EvTimeout ms => ms + total | _ => total end)
    0 tr.

(** ** Two compare-and-swap calls at once *)

(** What tells one compare-and-swap caller from another. *)
Record CasCaller : Type := {
  cc_body : string;
  cc_cond : GetObjectCommandOutput -> Async bool;
  cc_timeout : Z
}.

(** What the loop does with the outcome of a pass when the counter stood
    at [n] before it. *)
Definition cas_continue (bucket key : string) (c : CasCaller) (n : Z)
  : option LockHandle -> Async LockHandle :=
  fun r => match r with
           | Some lock => Return lock
           | None => S3Lock.cas_loop bucket key (Return (cc_body c)) (cc_cond c)
                       (cc_timeout c) (n - 1)
           end.

(** The places inside a pass: after its log line, after its read, before
    its write under the tag [etag], after that write. *)
Definition cas_after_log (bucket key : string) (c : CasCaller)
  : Async (option LockHandle) :=
  match S3Lock.cas_attempt bucket key (Return (cc_body c)) (cc_cond c) (cc_timeout c) with
  | ConsoleLog _ k => k
  | p => p
  end.

Definition cas_after_read (bucket key : string) (c : CasCaller)
    (resp : Settled GetObjectCommandOutput) : Async (option LockHandle) :=
  match cas_after_log bucket key c with
  | SendGet _ k => k resp
  | p => p
  end.

Definition cas_write_stage (bucket key : string) (c : CasCaller) (etag : option string)
  : Async (option LockHandle) :=
  cas_after_read bucket key
    {| cc_body := cc_body c; cc_cond := always; cc_timeout := cc_timeout c |}
    (Fulfilled {| Body := None; ETag := etag |}).

Definition cas_after_write (bucket key : string) (c : CasCaller) (etag : option string)
    (resp : Settled PutObjectCommandOutput) : Async (option LockHandle) :=
  match cas_write_stage bucket key c etag with
  | SendPut _ k => k resp
  | p => p
  end.

Definition cas_pass (bucket key : string) (c : CasCaller) (n : Z)
    (q : Async (option LockHandle)) : Async LockHandle :=
  Async_bind (cas_continue bucket key c n) q.

(** A caller on a lock no one has taken yet: at the top of the loop with
    an attempt left, before its read, or before its write under the tag
    the object has. *)
Inductive CasRacing (bucket key : string) (c : CasCaller) (tag0 : string)
  : Async LockHandle -> Prop :=
| cas_racing_top (n : Z) :
    n > 0 ->
    CasRacing bucket key c tag0
      (S3Lock.cas_loop bucket key (Return (cc_body c)) (cc_cond c) (cc_timeout c) n)
| cas_racing_read (n : Z) :
    CasRacing bucket key c tag0 (cas_pass bucket key c n (cas_after_log bucket key c))
| cas_racing_write (n : Z) :
    CasRacing bucket key c tag0
      (cas_pass bucket key c n (cas_write_stage bucket key c (Some tag0))).

(** A caller on a lock the other caller has taken: anywhere in the loop,
    the write it may still be about to send carrying the old tag. *)
Inductive CasLosing (bucket key : string) (c : CasCaller) (tag0 : string)
  : Async LockHandle -> Prop :=
| cas_losing_top (n : Z) :
    CasLosing bucket key c tag0
      (S3Lock.cas_loop bucket key (Return (cc_body c)) (cc_cond c) (cc_timeout c) n)
| cas_losing_read (n : Z) :
    CasLosing bucket key c tag0 (cas_pass bucket key c n (cas_after_log bucket key c))
| cas_losing_write (n : Z) :
    CasLosing bucket key c tag0
      (cas_pass bucket key c n (cas_write_stage bucket key c (Some tag0)))
| cas_losing_wait (n : Z) :
    CasLosing bucket key c tag0
      (cas_pass bucket key c n (SetTimeout (cc_timeout c) (Return None))).

Inductive CasWon (bucket key : string) : Async LockHandle -> Prop :=
| cas_won_logging (etag : option string) :
    CasWon bucket key
      (ConsoleLog "Compare and swap Lock acquired" (Return (S3Lock.locked bucket key etag)))
| cas_won_returned (etag : option string) :
    CasWon bucket key (Return (S3Lock.locked bucket key etag)).

(** Where two compare-and-swap calls on one key can be together, from a
    store [s0] whose object has tag [tag0]. *)
Definition cas_race_invariant (bucket key : string) (cA cB : CasCaller)
    (tag0 : string) (s0 : S3Store) (p q : Async LockHandle) (s : S3Store) : Prop :=
  (s = s0 /\ CasRacing bucket key cA tag0 p /\ CasRacing bucket key cB tag0 q) \/
  (s = snd (store_write (cas_put bucket key (Some tag0) (cc_body cA)) s0) /\
   CasWon bucket key p /\ CasLosing bucket key cB tag0 q) \/
  (s = snd (store_write (cas_put bucket key (Some tag0) (cc_body cB)) s0) /\
   CasLosing bucket key cA tag0 p /\ CasWon bucket key q).

(** The caller a request stands for. *)
Definition caller_of `{JsonRuntime} (props : AcquireLock) (body : string) : CasCaller :=
  {| cc_body := body;
     cc_cond := predicate_of props;
     cc_timeout := timeout_of props |}.

(** Both callers read before either writes. *)
Definition racing_schedule : list Caller :=
  [First; Second; First; Second; First; Second; Second; First].

(** ** example.ts *)

(** The runtime's [JSON.stringify], which the example's predicate calls on
    what it parsed. *)
Class JsonPrinter : Type := {
  JSON_stringify : JsonValue -> string
}.

(** [JSON.stringify({ locked: l, testConditional: t })]. *)
Definition JSON_stringify_flags (l t : bool) : string :=
  "{" +:+ dq +:+ "locked" +:+ dq +:+ ":" +:+ (if l then "true" else "false") +:+ ","
  +:+ dq +:+ "testConditional" +:+ dq +:+ ":" +:+ (if t then "true" else "false") +:+ "}".

(** What [console.log(e)] starts with: the name and the message of an
    error, the text of anything else. *)
Definition error_line (e : JsError) : string :=
  match e with
  | ErrorObject name message => name +:+ ": " +:+ message
  | ThrownValue description => description
  end.

(** [e.message === text]; a thrown value that is no error has no message. *)
Definition message_is (e : JsError) (text : string) : bool :=
  match e with
  | ErrorObject _ message => String.eqb message text
  | ThrownValue _ => false
  end.

(** What reading a property of [undefined] or [null] throws. *)
Definition TypeError (what : string) : JsError :=
  ErrorObject "TypeError" ("Cannot read properties of " +:+ what).

Module Example.

(** [id] is [Date.now()] as the template literal prints it. *)
Definition commonProps (id : string) : AcquireLock :=
  {| bucket := "test-s3-locking-cas"; key := id; generateBody := None;
     conditional := Absent; maxAttempts := None; timeout := None |}.

(** [new Error("Should not reach this")]. *)
Definition should_not_reach : JsError := ErrorObject "Error" "Should not reach this".

(** The [try] block the example repeats three times, around a call that
    is expected to fail, and its [catch]. *)
Definition expect_failure `{JsonRuntime} (props : AcquireLock) : Async unit :=
  try_catch
    (_ ← S3Lock.acquireLock props;
     Throw should_not_reach)
    (fun e =>
       _ ← console_log (error_line e);
       if message_is e "Should not reach this" then Throw e else Return tt).

Definition existenceLock `{JsonRuntime} (id : string) : Async unit :=
  _ ← console_log "Starting existence example";
  lock ← S3Lock.acquireLock (commonProps id);
  _ ← expect_failure (commonProps id);
  release lock (JSON_stringify_locked false).

(** The [conditional] of [compareAndSwapLock]. *)
Definition testConditional `{JsonRuntime} `{JsonPrinter} (props : GetObjectCommandOutput)
  : Async bool :=
  text ← match Body props with
         | Some text => Return text
         | None => Throw (TypeError "undefined (reading 'transformToString')")
         end;
  lockBody ← settle (JSON_parse text);
  match lockBody with
  | JNull => Throw (TypeError "null (reading 'locked')")
  | _ =>
      let verdict := negb (truthy (member "locked" lockBody))
                     && truthy (member "testConditional" lockBody) in
      _ ← console_log ("Conditional: " +:+ (if verdict then "true" else "false")
                       +:+ " and " +:+ JSON_stringify lockBody);
      Return verdict
  end.

Definition compareAndSwapCommonProps `{JsonRuntime} `{JsonPrinter} (id : string)
  : AcquireLock :=
  {| bucket := "test-s3-locking-cas"; key := id; generateBody := None;
     conditional := Present testConditional; maxAttempts := Some 2;
     timeout := Some 100 |}.

Definition compareAndSwapLock `{JsonRuntime} `{JsonPrinter} (id : string) : Async unit :=
  _ ← console_log "Starting compare and swap example";
  lock ← S3Lock.acquireLock
           {| bucket := "test-s3-locking-cas"; key := id;
              generateBody := Some (Return (JSON_stringify_flags true true));
              conditional := Present (fun _ => Return true);
              maxAttempts := Some 2; timeout := Some 100 |};
  _ ← expect_failure (compareAndSwapCommonProps id);
  _ ← release lock (JSON_stringify_flags false true);
  lock ← S3Lock.acquireLock (compareAndSwapCommonProps id);
  _ ← release lock (JSON_stringify_flags false false);
  expect_failure (compareAndSwapCommonProps id).

Definition handler `{JsonRuntime} `{JsonPrinter} (id : string) : Async string :=
  _ ← existenceLock id;
  _ ← compareAndSwapLock id;
  Return "ok".

End Example.

(** A runtime for the example: it parses the markers the example writes,
    and prints nothing of what it parsed. *)
Definition example_parse (text : string) : Settled JsonValue :=
  if String.eqb text (JSON_stringify_flags true true)
  then Fulfilled (JObject [("locked", JBool true); ("testConditional", JBool true)])
  else if String.eqb text (JSON_stringify_flags false true)
  then Fulfilled (JObject [("locked", JBool false); ("testConditional", JBool true)])
  else if String.eqb text (JSON_stringify_flags true false)
  then Fulfilled (JObject [("locked", JBool true); ("testConditional", JBool false)])
  else if String.eqb text (JSON_stringify_flags false false)
  then Fulfilled (JObject [("locked", JBool false); ("testConditional", JBool false)])
  else sample_parse text.

Definition example_runtime : JsonRuntime := {| JSON_parse := example_parse |}.

Definition example_printer : JsonPrinter := {| JSON_stringify := fun _ => "[object]" |}.

(** * Properties *)

Lemma triple_eta {A B C : Type} (x : A * B * C) : x = (fst (fst x), snd (fst x), snd x).
Proof. destruct x as [[a b] c]. reflexivity. Defined.

(** ** Running sequenced code *)

Section Running.
Context {W : Type} `{S3Client W}.

Lemma run_bind {A B : Type} (p : Async A) (f : A -> Async B) (w : W) :
  run (Async_bind f p) w =
  match run p w with
  | (Fulfilled a, w1, tr1) => let '(r, w2, tr2) := run (f a) w1 in (r, w2, tr1 ++ tr2)
  | (Rejected e, w1, tr1) => (Rejected e, w1, tr1)
  end.
Proof.
  revert w.
  induction p as [a|e|req k IH|req k IH|ms k IH|msg k IH]; intros w; simpl.
  - destruct (run (f a) w) as [[r w2] tr2]. reflexivity.
  - reflexivity.
  - destruct (get_object req w) as [resp w1]. rewrite IH.
    destruct (run (k resp) w1) as [[[a|e] w2] tr]; [|reflexivity].
    destruct (run (f a) w2) as [[r w3] tr3]. reflexivity.
  - destruct (put_object req w) as [resp w1]. rewrite IH.
    destruct (run (k resp) w1) as [[[a|e] w2] tr]; [|reflexivity].
    destruct (run (f a) w2) as [[r w3] tr3]. reflexivity.
  - rewrite IH. destruct (run k w) as [[[a|e] w2] tr]; [|reflexivity].
    destruct (run (f a) w2) as [[r w3] tr3]. reflexivity.
  - rewrite IH. destruct (run k w) as [[[a|e] w2] tr]; [|reflexivity].
    destruct (run (f a) w2) as [[r w3] tr3]. reflexivity.
Qed.

Lemma run_try_catch {A : Type} (p : Async A) (h : JsError -> Async A) (w : W) :
  run (try_catch p h) w =
  match run p w with
  | (Fulfilled a, w1, tr1) => (Fulfilled a, w1, tr1)
  | (Rejected e, w1, tr1) => let '(r, w2, tr2) := run (h e) w1 in (r, w2, tr1 ++ tr2)
  end.
Proof.
  revert w.
  induction p as [a|e|req k IH|req k IH|ms k IH|msg k IH]; intros w; simpl.
  - reflexivity.
  - destruct (run (h e) w) as [[r w2] tr2]. reflexivity.
  - destruct (get_object req w) as [resp w1]. rewrite IH.
    destruct (run (k resp) w1) as [[[a|e] w2] tr]; [reflexivity|].
    destruct (run (h e) w2) as [[r w3] tr3]. reflexivity.
  - destruct (put_object req w) as [resp w1]. rewrite IH.
    destruct (run (k resp) w1) as [[[a|e] w2] tr]; [reflexivity|].
    destruct (run (h e) w2) as [[r w3] tr3]. reflexivity.
  - rewrite IH. destruct (run k w) as [[[a|e] w2] tr]; [reflexivity|].
    destruct (run (h e) w2) as [[r w3] tr3]. reflexivity.
  - rewrite IH. destruct (run k w) as [[[a|e] w2] tr]; [reflexivity|].
    destruct (run (h e) w2) as [[r w3] tr3]. reflexivity.
Qed.

(** The loop, one test at a time. *)
Lemma cas_loop_exhausted (bucket key : string) (gen : Async string)
    (cond : GetObjectCommandOutput -> Async bool) (timeout attempt : Z) :
  attempt <= 0 ->
  S3Lock.cas_loop bucket key gen cond timeout attempt = Throw LockNotAcquiredError.
Proof.
  intros Hle. rewrite S3Lock.cas_loop_equation_1.
  destruct (Z_gt_dec attempt 0) as [Hgt|Hngt]; [lia|reflexivity].
Qed.

Lemma cas_loop_iterate (bucket key : string) (gen : Async string)
    (cond : GetObjectCommandOutput -> Async bool) (timeout attempt : Z) :
  attempt > 0 ->
  S3Lock.cas_loop bucket key gen cond timeout attempt =
  (r ← S3Lock.cas_attempt bucket key gen cond timeout;
   match r with
   | Some lock => Return lock
   | None => S3Lock.cas_loop bucket key gen cond timeout (attempt - 1)
   end).
Proof.
  intros Hgt. rewrite S3Lock.cas_loop_equation_1.
  destruct (Z_gt_dec attempt 0) as [Hgt'|Hngt]; [reflexivity|lia].
Qed.

(** Everything one attempt can do, case by case. *)
Lemma run_cas_attempt (bucket key : string) (gen : Async string)
    (cond : GetObjectCommandOutput -> Async bool) (timeout : Z) (w : W) :
  run (S3Lock.cas_attempt bucket key gen cond timeout) w =
  match get_object (cas_get bucket key) w with
  | (Rejected e, w1) =>
      (Rejected e, w1, [cas_log bucket key; EvGet (cas_get bucket key) (Rejected e)])
  | (Fulfilled o, w1) =>
      let seen := [cas_log bucket key; EvGet (cas_get bucket key) (Fulfilled o)] in
      match run (cond o) w1 with
      | (Rejected e, w2, tc) => (Rejected e, w2, seen ++ tc)
      | (Fulfilled false, w2, tc) => (Fulfilled None, w2, seen ++ tc ++ [EvTimeout timeout])
      | (Fulfilled true, w2, tc) =>
          match run gen w2 with
          | (Rejected e, w3, tg) =>
              if is_PreconditionFailed e
              then (Fulfilled None, w3, seen ++ tc ++ tg ++ [EvTimeout timeout])
              else (Rejected e, w3, seen ++ tc ++ tg)
          | (Fulfilled body, w3, tg) =>
              let put := cas_put bucket key (ETag o) body in
              match put_object put w3 with
              | (Fulfilled resp, w4) =>
                  (Fulfilled (Some (S3Lock.locked bucket key (put_ETag resp))), w4,
                   seen ++ tc ++ tg ++
                     [EvPut put (Fulfilled resp); EvLog "Compare and swap Lock acquired"])
              | (Rejected e, w4) =>
                  if is_PreconditionFailed e
                  then (Fulfilled None, w4,
                        seen ++ tc ++ tg ++ [EvPut put (Rejected e); EvTimeout timeout])
                  else (Rejected e, w4, seen ++ tc ++ tg ++ [EvPut put (Rejected e)])
              end
          end
      end
  end.
Proof.
  unfold S3Lock.cas_attempt, mbind, Async_mbind, mret, Async_mret, cas_get, cas_log.
  simpl.
  destruct (get_object _ w) as [[o|e] w1]; simpl; [|reflexivity].
  rewrite run_bind.
  destruct (run (cond o) w1) as [[[[|]|e] w2] tc]; simpl; [| |reflexivity].
  - rewrite run_try_catch, run_bind.
    destruct (run gen w2) as [[[body|e] w3] tg]; simpl.
    + unfold cas_put.
      destruct (put_object _ w3) as [[resp|e] w4]; simpl.
      * reflexivity.
      * destruct (is_PreconditionFailed e); simpl; rewrite <- ?app_assoc; reflexivity.
    + destruct (is_PreconditionFailed e); simpl; rewrite ?app_nil_r; reflexivity.
  - reflexivity.
Qed.

Lemma run_cas_loop_exhausted (bucket key : string) (gen : Async string)
    (cond : GetObjectCommandOutput -> Async bool) (timeout attempt : Z) (w : W) :
  attempt <= 0 ->
  run (S3Lock.cas_loop bucket key gen cond timeout attempt) w
  = (Rejected LockNotAcquiredError, w, []).
Proof. intros Hle. rewrite cas_loop_exhausted by exact Hle. reflexivity. Qed.

Lemma run_cas_loop_iterate (bucket key : string) (gen : Async string)
    (cond : GetObjectCommandOutput -> Async bool) (timeout attempt : Z) (w : W) :
  attempt > 0 ->
  run (S3Lock.cas_loop bucket key gen cond timeout attempt) w =
  match run (S3Lock.cas_attempt bucket key gen cond timeout) w with
  | (Fulfilled (Some lock), w1, tr1) => (Fulfilled lock, w1, tr1)
  | (Fulfilled None, w1, tr1) =>
      let '(r, w2, tr2) :=
        run (S3Lock.cas_loop bucket key gen cond timeout (attempt - 1)) w1 in
      (r, w2, tr1 ++ tr2)
  | (Rejected e, w1, tr1) => (Rejected e, w1, tr1)
  end.
Proof.
  intros Hgt. rewrite cas_loop_iterate by exact Hgt.
  unfold mbind, Async_mbind. rewrite run_bind.
  destruct (run (S3Lock.cas_attempt _ _ _ _ _) w) as [[[[lock|]|e] w1] tr1]; simpl.
  - rewrite app_nil_r. reflexivity.
  - reflexivity.
  - reflexivity.
Qed.

Lemma acquireLock_cas `{JsonRuntime} (props : AcquireLock) :
  isCompareAndSwapLock props = true ->
  S3Lock.acquireLock props =
  S3Lock.cas_loop (bucket props) (key props) (generator_of props)
    (predicate_of props) (timeout_of props) (attempts_of props).
Proof. intros Hcas. unfold S3Lock.acquireLock. rewrite Hcas. reflexivity. Qed.

Lemma acquireLock_existence `{JsonRuntime} (props : AcquireLock) :
  isCompareAndSwapLock props = false ->
  S3Lock.acquireLock props =
  S3Lock.existence_lock (bucket props) (key props) (generator_of props).
Proof. intros Hcas. unfold S3Lock.acquireLock. rewrite Hcas. reflexivity. Qed.

(** An attempt starts by logging and reading, whatever comes next. *)
Lemma cas_attempt_starts (bucket key : string) (gen : Async string)
    (cond : GetObjectCommandOutput -> Async bool) (timeout : Z) (w w' : W)
    (r : Settled (option LockHandle)) (tr : list Event) :
  run (S3Lock.cas_attempt bucket key gen cond timeout) w = (r, w', tr) ->
  exists rest,
    tr = cas_log bucket key
           :: EvGet (cas_get bucket key) (fst (get_object (cas_get bucket key) w))
           :: rest.
Proof.
  rewrite run_cas_attempt.
  destruct (get_object _ w) as [[o|e] w1]; simpl.
  - destruct (run (cond o) w1) as [[[[|]|e] w2] tc]; simpl.
    + destruct (run gen w2) as [[[body|e] w3] tg]; simpl.
      * destruct (put_object _ w3) as [[resp|e] w4]; simpl.
        -- intros [= <- <- <-]. eauto.
        -- destruct (is_PreconditionFailed e); intros [= <- <- <-]; eauto.
      * destruct (is_PreconditionFailed e); intros [= <- <- <-]; eauto.
    + intros [= <- <- <-]. eauto.
    + intros [= <- <- <-]. eauto.
  - intros [= <- <- <-]. eauto.
Qed.

(** An attempt on which the predicate says no: a log line, the read, the
    wait, and [continue]. *)
Lemma run_cas_attempt_refused (bucket key : string) (gen : Async string)
    (cond : GetObjectCommandOutput -> Async bool) (timeout : Z)
    (w w1 : W) (o : GetObjectCommandOutput) :
  get_object (cas_get bucket key) w = (Fulfilled o, w1) ->
  cond o = Return false ->
  run (S3Lock.cas_attempt bucket key gen cond timeout) w =
  (Fulfilled None, w1,
   [cas_log bucket key; EvGet (cas_get bucket key) (Fulfilled o); EvTimeout timeout]).
Proof.
  intros Hget Hcond. rewrite run_cas_attempt, Hget, Hcond. reflexivity.
Qed.

Lemma cas_loop_all_refused (bucket key : string) (gen : Async string)
    (cond : GetObjectCommandOutput -> Async bool) (timeout : Z) (n : nat) :
  forall (attempt : Z) (w w' : W) (r : Settled LockHandle) (tr : list Event),
    Z.to_nat attempt = n ->
    run (S3Lock.cas_loop bucket key gen cond timeout attempt) w = (r, w', tr) ->
    Forall (refused cond) tr ->
    r = Rejected LockNotAcquiredError /\ length (reads tr) = n /\ writes tr = [].
Proof.
  induction n as [|n IH]; intros attempt w w' r tr Hn Hrun Hall.
  - rewrite run_cas_loop_exhausted in Hrun by lia.
    injection Hrun as <- <- <-. auto.
  - rewrite run_cas_loop_iterate in Hrun by lia.
    destruct (run (S3Lock.cas_attempt bucket key gen cond timeout) w)
      as [[ra w2] tr1] eqn:Hattempt.
    destruct (cas_attempt_starts _ _ _ _ _ _ _ _ _ Hattempt) as [rest ->].
    destruct (get_object (cas_get bucket key) w) as [resp w1] eqn:Hget.
    cbn [fst] in *.
    assert (Hhead : refused cond (EvGet (cas_get bucket key) resp)).
    { assert (Hsub : exists tr2, tr = cas_log bucket key
                       :: EvGet (cas_get bucket key) resp :: rest ++ tr2).
      { destruct ra as [[lock|]|e].
        - injection Hrun as <- <- <-. exists []. rewrite app_nil_r. reflexivity.
        - destruct (run (S3Lock.cas_loop _ _ _ _ _ _) w2) as [[r2 w3] tr2].
          injection Hrun as <- <- <-. exists tr2. reflexivity.
        - injection Hrun as <- <- <-. exists []. rewrite app_nil_r. reflexivity. }
      destruct Hsub as [tr2 ->].
      apply Forall_cons_1 in Hall as [_ Hall].
      apply Forall_cons_1 in Hall as [Hall _]. exact Hall. }
    destruct resp as [o|e]; simpl in Hhead; [|contradiction].
    rewrite (run_cas_attempt_refused _ _ _ _ _ _ _ _ Hget Hhead) in Hattempt.
    injection Hattempt as <- <- Hrest'.
    destruct (run (S3Lock.cas_loop bucket key gen cond timeout (attempt - 1)) w1)
      as [[r2 w3] tr2] eqn:Hrest.
    injection Hrun as <- <- <-. rewrite <- Hrest' in Hall. simpl in Hall.
    do 3 (apply Forall_cons_1 in Hall as [_ Hall]).
    destruct (IH (attempt - 1) w1 w3 r2 tr2) as (Hr & Hreads & Hwrites);
      [lia|exact Hrest|exact Hall|].
    rewrite <- Hrest'. simpl. unfold reads, writes in *. simpl. rewrite Hreads. auto.
Qed.



(** With a predicate and a generator that do not touch the store, an
    attempt reads once. *)
Lemma cas_attempt_reads_once (bucket key : string) (body : string)
    (cond : GetObjectCommandOutput -> Async bool) (timeout : Z) (w w' : W)
    (r : Settled (option LockHandle)) (tr : list Event) :
  pure_predicate cond ->
  run (S3Lock.cas_attempt bucket key (Return body) cond timeout) w = (r, w', tr) ->
  length (reads tr) = 1%nat.
Proof.
  intros Hpure. rewrite run_cas_attempt.
  destruct (get_object _ w) as [[o|e] w1]; simpl.
  - destruct (Hpure o) as [c ->]. simpl. destruct c.
    + destruct (put_object _ w1) as [[resp|e] w4]; simpl.
      * intros [= <- <- <-]. reflexivity.
      * destruct (is_PreconditionFailed e); intros [= <- <- <-]; reflexivity.
    + intros [= <- <- <-]. reflexivity.
  - intros [= <- <- <-]. reflexivity.
Qed.

Lemma reads_app (tr1 tr2 : list Event) : reads (tr1 ++ tr2) = reads tr1 ++ reads tr2.
Proof. unfold reads. induction tr1 as [|ev tr1 IH]; simpl; [reflexivity|].
  destruct (is_read ev); simpl; rewrite IH; reflexivity. Qed.

Lemma writes_app (tr1 tr2 : list Event) : writes (tr1 ++ tr2) = writes tr1 ++ writes tr2.
Proof. unfold writes. induction tr1 as [|ev tr1 IH]; simpl; [reflexivity|].
  destruct (is_write ev); simpl; rewrite IH; reflexivity. Qed.

(** However the attempts end, refused by the predicate or turned down by
    the store, there are no more of them than the counter allows. *)
Lemma cas_loop_reads_bounded (bucket key : string) (body : string)
    (cond : GetObjectCommandOutput -> Async bool) (timeout : Z) (n : nat) :
  pure_predicate cond ->
  forall (attempt : Z) (w w' : W) (r : Settled LockHandle) (tr : list Event),
    Z.to_nat attempt = n ->
    run (S3Lock.cas_loop bucket key (Return body) cond timeout attempt) w = (r, w', tr) ->
    (length (reads tr) <= n)%nat.
Proof.
  intros Hpure. induction n as [|n IH]; intros attempt w w' r tr Hn Hrun.
  - rewrite run_cas_loop_exhausted in Hrun by lia.
    injection Hrun as <- <- <-. simpl. lia.
  - rewrite run_cas_loop_iterate in Hrun by lia.
    destruct (run (S3Lock.cas_attempt bucket key (Return body) cond timeout) w)
      as [[ra w1] tr1] eqn:Hattempt.
    pose proof (cas_attempt_reads_once _ _ _ _ _ _ _ _ _ Hpure Hattempt) as Hone.
    destruct ra as [[lock|]|e].
    + injection Hrun as <- <- <-. lia.
    + destruct (run (S3Lock.cas_loop _ _ _ _ _ _) w1) as [[r2 w2] tr2] eqn:Hrest.
      injection Hrun as <- <- <-. rewrite reads_app, length_app, Hone.
      assert (length (reads tr2) <= n)%nat
        by (apply (IH (attempt - 1) w1 w2 r2); [lia|exact Hrest]).
      lia.
    + injection Hrun as <- <- <-. lia.
Qed.

(** Everything the existence branch can do. *)
Lemma run_existence_lock (bucket key : string) (gen : Async string) (w : W) :
  run (S3Lock.existence_lock bucket key gen) w =
  match run gen w with
  | (Rejected e, w1, tg) => (Rejected (rethrown e), w1, existence_log bucket key :: tg)
  | (Fulfilled body, w1, tg) =>
      let put := existence_put bucket key body in
      match put_object put w1 with
      | (Fulfilled resp, w2) =>
          (Fulfilled (S3Lock.locked bucket key (put_ETag resp)), w2,
           existence_log bucket key :: tg ++
             [EvPut put (Fulfilled resp); EvLog "Existence Lock acquired"])
      | (Rejected e, w2) =>
          (Rejected (rethrown e), w2,
           existence_log bucket key :: tg ++ [EvPut put (Rejected e)])
      end
  end.
Proof.
  unfold S3Lock.existence_lock, mbind, Async_mbind, mret, Async_mret,
    existence_log, existence_put, rethrown.
  simpl. rewrite run_try_catch, run_bind.
  destruct (run gen w) as [[[body|e] w1] tg]; simpl.
  - destruct (put_object _ w1) as [[resp|e] w2]; simpl.
    + reflexivity.
    + destruct (is_PreconditionFailed e); simpl; rewrite app_nil_r; reflexivity.
  - destruct (is_PreconditionFailed e); simpl; rewrite app_nil_r; reflexivity.
Qed.


End Running.

(** What is true of the world before a call and kept by every request is
    true after the call. *)
Lemma run_invariant {W : Type} `{S3Client W} (Inv : W -> Prop) :
  (forall req w, Inv w -> Inv (snd (get_object req w))) ->
  (forall req w, Inv w -> Inv (snd (put_object req w))) ->
  forall {A : Type} (p : Async A) (w w' : W) (r : Settled A) (tr : list Event),
    run p w = (r, w', tr) -> Inv w -> Inv w'.
Proof.
  intros Hget Hput A p.
  induction p as [a|e|req k IH|req k IH|ms k IH|msg k IH]; intros w w' r tr; simpl.
  - intros [= <- <- <-]. auto.
  - intros [= <- <- <-]. auto.
  - specialize (Hget req w). destruct (get_object req w) as [resp w1].
    destruct (run (k resp) w1) as [[r2 w2] tr2] eqn:Hk.
    intros [= <- <- <-] Hw. eapply IH; [exact Hk|]. auto.
  - specialize (Hput req w). destruct (put_object req w) as [resp w1].
    destruct (run (k resp) w1) as [[r2 w2] tr2] eqn:Hk.
    intros [= <- <- <-] Hw. eapply IH; [exact Hk|]. auto.
  - destruct (run k w) as [[r2 w2] tr2] eqn:Hk.
    intros [= <- <- <-] Hw. eapply IH; [exact Hk|]. auto.
  - destruct (run k w) as [[r2 w2] tr2] eqn:Hk.
    intros [= <- <- <-] Hw. eapply IH; [exact Hk|]. auto.
Qed.

(** ** The store *)

Lemma store_get_unchanged (req : GetObjectInput) (s : S3Store) :
  snd (store_get req s) = s.
Proof. unfold store_get. destruct (objects s !! _); reflexivity. Qed.

(** A write is accepted with a fresh tag or changes nothing. *)
Lemma store_put_cases (req : PutObjectInput) (s : S3Store) :
  store_put req s = store_write req s \/
  (exists e, store_put req s = (Rejected e, s)).
Proof.
  unfold store_put.
  repeat case_match; eauto.
Qed.

Lemma store_put_accepted (req : PutObjectInput) (s s' : S3Store)
    (out : PutObjectCommandOutput) :
  store_put req s = (Fulfilled out, s') ->
  out = {| put_ETag := Some (fresh_etag s) |} /\
  s' = snd (store_write req s).
Proof.
  destruct (store_put_cases req s) as [->|[e ->]].
  - intros [= <- <-]. auto.
  - discriminate.
Qed.

Lemma store_write_wf (req : PutObjectInput) (s : S3Store) :
  store_wf s -> store_wf (snd (store_write req s)).
Proof.
  intros Hwf k o. unfold store_write. cbn [snd objects accepted]. intros Hlook.
  destruct (decide ((put_Bucket req, put_Key req) = k)) as [Heq|Hne].
  - subst k. rewrite lookup_insert_eq in Hlook. injection Hlook as <-. simpl.
    exists (accepted s). split; [reflexivity|lia].
  - rewrite lookup_insert_ne in Hlook by exact Hne.
    destruct (Hwf k o Hlook) as (n & Htag & Hlt). exists n. split; [exact Htag|lia].
Qed.

Lemma store_get_wf (req : GetObjectInput) (s : S3Store) :
  store_wf s -> store_wf (snd (get_object req s)).
Proof. simpl. rewrite store_get_unchanged. auto. Qed.

Lemma store_put_wf (req : PutObjectInput) (s : S3Store) :
  store_wf s -> store_wf (snd (put_object req s)).
Proof.
  simpl. intros Hwf. destruct (store_put_cases req s) as [->|[e ->]].
  - apply store_write_wf. exact Hwf.
  - exact Hwf.
Qed.

Lemma empty_store_wf : store_wf empty_store.
Proof. intros k o Hlook. simpl in Hlook. rewrite lookup_empty in Hlook. discriminate. Qed.

Lemma store_with_wf (bucket key body : string) : store_wf (store_with bucket key body).
Proof. apply store_write_wf, empty_store_wf. Qed.

(** What other clients leave behind.  If one of their writes to the key
    was accepted, the key holds a tag handed out after they started; if
    none was, the key holds what it held. *)
Lemma run_store_progress (bucket key : string) {A : Type} (p : Async A) :
  forall (s s' : S3Store) (r : Settled A) (tr : list Event),
    run p s = (r, s', tr) ->
    store_wf s ->
    store_wf s' /\ (accepted s <= accepted s')%nat /\
    (if wrote_to bucket key tr
     then exists o n, objects s' !! (bucket, key) = Some o /\
                      object_etag o = pretty n /\ (accepted s <= n)%nat
     else objects s' !! (bucket, key) = objects s !! (bucket, key)).
Proof.
  induction p as [a|e|req k IH|req k IH|ms k IH|msg k IH]; intros s s' r tr; simpl.
  - intros [= <- <- <-] Hwf. simpl. auto.
  - intros [= <- <- <-] Hwf. simpl. auto.
  - pose proof (store_get_unchanged req s) as Hsame.
    destruct (store_get req s) as [resp s1]. simpl in Hsame. subst s1.
    destruct (run (k resp) s) as [[r2 s2] tr2] eqn:Hk.
    intros [= <- <- <-] Hwf. simpl.
    exact (IH resp s s2 r2 tr2 Hk Hwf).
  - destruct (store_put_cases req s) as [Hput|[e Hput]]; rewrite Hput.
    + pose proof (store_write_wf req s) as Hwf1.
      assert (Hacc : accepted (snd (store_write req s)) = S (accepted s)) by reflexivity.
      assert (Hobj : objects (snd (store_write req s))
                     = <[(put_Bucket req, put_Key req) :=
                           {| object_body := put_Body req; object_etag := fresh_etag s |}]>
                         (objects s)) by reflexivity.
      destruct (store_write req s) as [[out|e] s1] eqn:Hw; [|discriminate Hw].
      cbn [snd] in Hwf1, Hacc, Hobj.
      destruct (run (k (Fulfilled out)) s1) as [[r2 s2] tr2] eqn:Hk.
      intros [= <- <- <-] Hwf.
      destruct (IH _ _ _ _ _ Hk (Hwf1 Hwf)) as (Hwf2 & Hle & Hkey).
      split; [exact Hwf2|]. split; [lia|].
      unfold wrote_to in *. cbn [existsb is_accepted_write].
      destruct (existsb (is_accepted_write bucket key) tr2).
      * rewrite orb_true_r. destruct Hkey as (o & n & Hlook & Htag & Hn).
        exists o, n. repeat split; [exact Hlook|exact Htag|lia].
      * rewrite orb_false_r, Hkey, Hobj.
        destruct (String.eqb_spec (put_Bucket req) bucket) as [Hb|Hb];
          destruct (String.eqb_spec (put_Key req) key) as [Hk'|Hk']; simpl;
          try (apply lookup_insert_ne; congruence).
        rewrite Hb, Hk', lookup_insert_eq.
        eexists _, (accepted s). split; [reflexivity|split; [reflexivity|lia]].
    + destruct (run (k _) _) as [[r2 s2] tr2] eqn:Hk.
      intros [= <- <- <-] Hwf. simpl.
      exact (IH _ _ _ _ _ Hk Hwf).
  - destruct (run k s) as [[r2 s2] tr2] eqn:Hk.
    intros [= <- <- <-] Hwf. simpl. exact (IH _ _ _ _ Hk Hwf).
  - destruct (run k s) as [[r2 s2] tr2] eqn:Hk.
    intros [= <- <- <-] Hwf. simpl. exact (IH _ _ _ _ Hk Hwf).
Qed.

(** ** What a successful call leaves *)

Section Acquired.
Context {W : Type} `{S3Client W} (Inv : W -> Prop).
Hypothesis Inv_get : forall req w, Inv w -> Inv (snd (get_object req w)).
Hypothesis Inv_put : forall req w, Inv w -> Inv (snd (put_object req w)).

Lemma cas_attempt_acquired (bucket key : string) (gen : Async string)
    (cond : GetObjectCommandOutput -> Async bool) (timeout : Z) (w w' : W)
    (h : LockHandle) (tr : list Event) :
  run (S3Lock.cas_attempt bucket key gen cond timeout) w = (Fulfilled (Some h), w', tr) ->
  Inv w ->
  acquired_by Inv bucket key w' h tr.
Proof.
  rewrite run_cas_attempt.
  pose proof (Inv_get (cas_get bucket key) w) as Hw1.
  destruct (get_object _ w) as [[o|e] w1]; simpl; [|discriminate].
  destruct (run (cond o) w1) as [[[[|]|e] w2] tc] eqn:Hcond; simpl; [|discriminate..].
  destruct (run gen w2) as [[[body|e] w3] tg] eqn:Hgen; simpl.
  - destruct (put_object _ w3) as [[out|e] w4] eqn:Hput; simpl.
    + intros [= <- <- <-] Hw.
      exists (cas_put bucket key (ETag o) body), out, w3,
        (cas_log bucket key :: EvGet (cas_get bucket key) (Fulfilled o) :: tc ++ tg),
        "Compare and swap Lock acquired".
      split.
      { eapply (run_invariant Inv Inv_get Inv_put); [exact Hgen|].
        eapply (run_invariant Inv Inv_get Inv_put); [exact Hcond|]. auto. }
      split; [exact Hput|]. repeat split.
      simpl. rewrite <- app_assoc. reflexivity.
    + destruct (is_PreconditionFailed e); discriminate.
  - destruct (is_PreconditionFailed e); discriminate.
Qed.

Lemma cas_loop_acquired (bucket key : string) (gen : Async string)
    (cond : GetObjectCommandOutput -> Async bool) (timeout : Z) (n : nat) :
  forall (attempt : Z) (w w' : W) (h : LockHandle) (tr : list Event),
    Z.to_nat attempt = n ->
    run (S3Lock.cas_loop bucket key gen cond timeout attempt) w = (Fulfilled h, w', tr) ->
    Inv w ->
    acquired_by Inv bucket key w' h tr.
Proof.
  induction n as [|n IH]; intros attempt w w' h tr Hn Hrun Hw.
  - rewrite run_cas_loop_exhausted in Hrun by lia. discriminate Hrun.
  - rewrite run_cas_loop_iterate in Hrun by lia.
    destruct (run (S3Lock.cas_attempt bucket key gen cond timeout) w)
      as [[[[lock|]|e] w1] tr1] eqn:Hattempt.
    + injection Hrun as <- <- <-.
      eapply cas_attempt_acquired; [exact Hattempt|exact Hw].
    + destruct (run (S3Lock.cas_loop _ _ _ _ _ _) w1) as [[r2 w2] tr2] eqn:Hrest.
      injection Hrun as -> <- <-.
      destruct (IH (attempt - 1) w1 w2 h tr2) as
        (req & out & w0 & tr0 & msg & Hw0 & Hput & Hb & Hk & Hh & ->);
        [lia|exact Hrest| |].
      { eapply (run_invariant Inv Inv_get Inv_put); [exact Hattempt|exact Hw]. }
      exists req, out, w0, (tr1 ++ tr0), msg.
      rewrite <- app_assoc. auto 10.
    + discriminate Hrun.
Qed.

Lemma existence_lock_acquired (bucket key : string) (gen : Async string) (w w' : W)
    (h : LockHandle) (tr : list Event) :
  run (S3Lock.existence_lock bucket key gen) w = (Fulfilled h, w', tr) ->
  Inv w ->
  acquired_by Inv bucket key w' h tr.
Proof.
  rewrite run_existence_lock.
  destruct (run gen w) as [[[body|e] w1] tg] eqn:Hgen; simpl; [|discriminate].
  destruct (put_object _ w1) as [[out|e] w2] eqn:Hput; simpl; [|discriminate].
  intros [= <- <- <-] Hw.
  exists (existence_put bucket key body), out, w1, (existence_log bucket key :: tg),
    "Existence Lock acquired".
  split; [eapply (run_invariant Inv Inv_get Inv_put); [exact Hgen|exact Hw]|].
  split; [exact Hput|]. repeat split.
Qed.

Lemma acquireLock_acquired `{JsonRuntime} (props : AcquireLock) (w w' : W)
    (h : LockHandle) (tr : list Event) :
  run (S3Lock.acquireLock props) w = (Fulfilled h, w', tr) ->
  Inv w ->
  acquired_by Inv (bucket props) (key props) w' h tr.
Proof.
  destruct (isCompareAndSwapLock props) eqn:Hmode.
  - rewrite acquireLock_cas by exact Hmode.
    apply (cas_loop_acquired _ _ _ _ _ _ _ _ _ _ _ eq_refl).
  - rewrite acquireLock_existence by exact Hmode.
    apply existence_lock_acquired.
Qed.

(** What [release] does: one write, and the caller gets what the store
    said. *)
Lemma run_release (bucket key : string) (etag : option string) (newBody : string)
    (w : W) :
  let put := release_put bucket key etag newBody in
  run (release (S3Lock.locked bucket key etag) newBody) w
  = (surfaced (fst (put_object put w)), snd (put_object put w),
     [EvPut put (fst (put_object put w))]).
Proof.
  simpl. unfold release_put.
  destruct (put_object _ w) as [[out|e] w1]; reflexivity.
Qed.

End Acquired.

(** ** The compare-and-swap loop *)

(** C10. A compare-and-swap call whose [maxAttempts] is zero or negative
    throws [LockNotAcquiredError] at once: it awaits nothing, so it reads
    nothing and writes nothing, and leaves no trace at all. *)
Theorem cas_without_attempts_fails_at_once `{JsonRuntime} {W : Type} `{S3Client W}
    (props : AcquireLock) (m : Z) (w : W) :
  isCompareAndSwapLock props = true ->
  maxAttempts props = Some m ->
  m <= 0 ->
  S3Lock.acquireLock props = Throw LockNotAcquiredError /\
  run (S3Lock.acquireLock props) w = (Rejected LockNotAcquiredError, w, []).
Proof.
  intros Hcas Hmax Hle.
  assert (Hthrow : S3Lock.acquireLock props = Throw LockNotAcquiredError).
  { rewrite acquireLock_cas by exact Hcas.
    apply cas_loop_exhausted. unfold attempts_of. rewrite Hmax. exact Hle. }
  split; [exact Hthrow|]. rewrite Hthrow. reflexivity.
Qed.

Lemma cas_without_attempts_witness :
  let props := sample_props (Present never) (Some 0) in
  (isCompareAndSwapLock props = true /\ maxAttempts props = Some 0 /\ 0 <= 0) /\
  run (@S3Lock.acquireLock sample_runtime props) locked_store
  = (Rejected LockNotAcquiredError, locked_store, []).
Proof.
  split; [repeat split; lia|].
  apply (@cas_without_attempts_fails_at_once sample_runtime S3Store _
           (sample_props (Present never) (Some 0)) 0 locked_store);
    [reflexivity|reflexivity|lia].
Defined.

(** C3. A compare-and-swap call in which every read is answered and the
    predicate says no to every answer reads the store [maxAttempts] times
    (five when the caller gave none) and not once more, writes nothing, and
    fails with [LockNotAcquiredError].  [Z.to_nat] is the counter as a
    count: for a [maxAttempts] that is not negative the number of reads is
    [maxAttempts] itself, and a negative one is no attempt. *)
Theorem cas_refused_every_time `{JsonRuntime} {W : Type} `{S3Client W}
    (props : AcquireLock) (w w' : W) (r : Settled LockHandle) (tr : list Event) :
  isCompareAndSwapLock props = true ->
  run (S3Lock.acquireLock props) w = (r, w', tr) ->
  Forall (refused (predicate_of props)) tr ->
  r = Rejected LockNotAcquiredError /\
  length (reads tr) = Z.to_nat (attempts_of props) /\
  (0 <= attempts_of props -> Z.of_nat (length (reads tr)) = attempts_of props) /\
  writes tr = [].
Proof.
  intros Hcas Hrun Hall. rewrite acquireLock_cas in Hrun by exact Hcas.
  destruct (cas_loop_all_refused _ _ _ _ _ _ _ _ _ _ _ eq_refl Hrun Hall)
    as (Hr & Hreads & Hwrites).
  repeat split; [exact Hr|exact Hreads| |exact Hwrites].
  intros Hnonneg. rewrite Hreads. apply Z2Nat.id. exact Hnonneg.
Qed.

Lemma cas_refused_every_time_witness :
  let props := sample_props (Present never) (Some 3) in
  let res := run (@S3Lock.acquireLock sample_runtime props) unlocked_store in
  (isCompareAndSwapLock props = true /\
   Forall (refused (@predicate_of sample_runtime props)) (snd res)) /\
  fst (fst res) = Rejected LockNotAcquiredError /\
  length (reads (snd res)) = 3%nat /\
  writes (snd res) = [].
Proof.
  intros props res.
  assert (Hall : Forall (refused (@predicate_of sample_runtime props)) (snd res)).
  { vm_compute. repeat constructor. }
  split; [split; [reflexivity|exact Hall]|].
  destruct (@cas_refused_every_time sample_runtime S3Store _ props unlocked_store
              (snd (fst res)) (fst (fst res)) (snd res) eq_refl (triple_eta res) Hall)
    as (Hr & Hreads & _ & Hwrites).
  split; [exact Hr|split; [exact Hreads|exact Hwrites]].
Defined.

(** C8. A pass through the loop on which the predicate says no issues no
    write: it logs, reads, waits and goes round again, and what is left of
    the call is the loop with the counter one lower.  Against the store the
    pass leaves every object as it was.  The counter is the one that bounds
    the retries after a rejected write as well: with a predicate and a
    generator that leave the store alone, a call reads at most as often as
    the counter says, however its passes end. *)
Theorem cas_refused_pass_spends_an_attempt {W : Type} `{S3Client W}
    (bucket key : string) (gen : Async string)
    (cond : GetObjectCommandOutput -> Async bool) (timeout attempt : Z)
    (w w1 : W) (o : GetObjectCommandOutput) :
  attempt > 0 ->
  get_object (cas_get bucket key) w = (Fulfilled o, w1) ->
  cond o = Return false ->
  let pass := [cas_log bucket key; EvGet (cas_get bucket key) (Fulfilled o);
               EvTimeout timeout] in
  run (S3Lock.cas_attempt bucket key gen cond timeout) w = (Fulfilled None, w1, pass) /\
  writes pass = [] /\
  run (S3Lock.cas_loop bucket key gen cond timeout attempt) w
  = (let '(r, w2, tr) :=
       run (S3Lock.cas_loop bucket key gen cond timeout (attempt - 1)) w1 in
     (r, w2, pass ++ tr)) /\
  (forall (s s1 : S3Store) (o' : GetObjectCommandOutput),
     get_object (cas_get bucket key) s = (Fulfilled o', s1) ->
     cond o' = Return false ->
     snd (fst (run (S3Lock.cas_attempt bucket key gen cond timeout) s)) = s) /\
  (forall (body : string) (w0 w' : W) (r : Settled LockHandle) (tr : list Event),
     pure_predicate cond ->
     run (S3Lock.cas_loop bucket key (Return body) cond timeout attempt) w0 = (r, w', tr) ->
     (length (reads tr) <= Z.to_nat attempt)%nat).
Proof.
  intros Hgt Hget Hcond pass.
  pose proof (run_cas_attempt_refused bucket key gen cond timeout w w1 o Hget Hcond)
    as Hpass.
  split; [exact Hpass|]. split; [reflexivity|]. split; [|split].
  - rewrite run_cas_loop_iterate by exact Hgt. rewrite Hpass. reflexivity.
  - intros s s1 o' Hget' Hcond'.
    rewrite (run_cas_attempt_refused bucket key gen cond timeout s s1 o' Hget' Hcond').
    simpl. simpl in Hget'. unfold store_get in Hget'.
    destruct (objects s !! _); injection Hget' as _ <-; reflexivity.
  - intros body w0 w' r tr Hpure Hrun.
    eapply cas_loop_reads_bounded; [exact Hpure|reflexivity|exact Hrun].
Qed.

Lemma cas_refused_pass_witness :
  let o := {| Body := Some (JSON_stringify_locked true); ETag := Some "0" |} in
  (2 > 0 /\
   get_object (cas_get "locks" "job") locked_store = (Fulfilled o, locked_store) /\
   @defaultConditional sample_runtime o = Return false) /\
  run (S3Lock.cas_attempt "locks" "job" defaultGenerateBody
         (@defaultConditional sample_runtime) 100) locked_store
  = (Fulfilled None, locked_store,
     [cas_log "locks" "job"; EvGet (cas_get "locks" "job") (Fulfilled o); EvTimeout 100]).
Proof.
  intros o.
  assert (Hget : get_object (cas_get "locks" "job") locked_store
                 = (Fulfilled o, locked_store)) by reflexivity.
  assert (Hcond : @defaultConditional sample_runtime o = Return false) by reflexivity.
  split; [split; [lia|split; [exact Hget|exact Hcond]]|].
  exact (proj1 (@cas_refused_pass_spends_an_attempt S3Store _ "locks" "job"
                  defaultGenerateBody (@defaultConditional sample_runtime) 100 2
                  locked_store locked_store o ltac:(lia) Hget Hcond)).
Defined.



(** ** The existence lock *)



(** ** The default predicate *)

Lemma defaultConditional_parsed `{JsonRuntime} (props : GetObjectCommandOutput)
    (v : JsonValue) :
  JSON_parse (default "{}" (Body props)) = Fulfilled v ->
  defaultConditional props = Return (negb (truthy (optional_member "locked" v))).
Proof. intros Hparse. unfold defaultConditional. rewrite Hparse. reflexivity. Qed.

(** C9. The default predicate says yes to a read result without a body
    (the text parsed is then the empty object's) and to one whose body
    parses to an object that has no [locked] field. *)
Theorem defaultConditional_without_locked `{JsonRuntime} (props : GetObjectCommandOutput) :
  (Body props = None ->
   JSON_parse "{}" = Fulfilled (JObject []) ->
   defaultConditional props = Return true) /\
  (forall (text : string) (fields : list (string * JsonValue)),
     Body props = Some text ->
     JSON_parse text = Fulfilled (JObject fields) ->
     assoc_field "locked" fields = None ->
     defaultConditional props = Return true).
Proof.
  split.
  - intros Hbody Hparse.
    rewrite (defaultConditional_parsed props (JObject [])); [reflexivity|].
    rewrite Hbody. exact Hparse.
  - intros text fields Hbody Hparse Hfield.
    rewrite (defaultConditional_parsed props (JObject fields)).
    + simpl. rewrite Hfield. reflexivity.
    + rewrite Hbody. exact Hparse.
Qed.

Lemma defaultConditional_without_locked_witness :
  let props := {| Body := None; ETag := Some "0" |} in
  (Body props = None /\ sample_parse "{}" = Fulfilled (JObject [])) /\
  @defaultConditional sample_runtime props = Return true.
Proof.
  intros props. split; [split; reflexivity|].
  exact (proj1 (@defaultConditional_without_locked sample_runtime props) eq_refl eq_refl).
Defined.




(** ** The initializer *)

(** What [initializeLockFile] does on the store, whatever is there: its
    write carries neither [If-None-Match] nor [If-Match], so the store
    accepts it. *)
Lemma initializeLockFile_on_store (props : InitializeLockFile) (s : S3Store) :
  put_IfNoneMatch (initialize_put props) = None /\
  put_IfMatch (initialize_put props) = None /\
  run (S3Lock.initializeLockFile props) s
  = (Fulfilled tt, snd (store_write (initialize_put props) s),
     [EvPut (initialize_put props) (fst (store_write (initialize_put props) s))]).
Proof. repeat split. Qed.

(** C4, at the input where the code departs from it.  On a bucket whose
    lock object says [locked: true], [initializeLockFile] does not fail: its
    one write is unconditional, the store accepts it, and the object now
    says [locked: false] under a new tag. *)
Theorem initializeLockFile_overwrites :
  let props := {| init_bucket := "locks"; init_key := "job" |} in
  let res := run (S3Lock.initializeLockFile props) locked_store in
  objects locked_store !! ("locks", "job")
  = Some {| object_body := JSON_stringify_locked true; object_etag := "0" |} /\
  fst (fst res) = Fulfilled tt /\
  snd res = [EvPut (initialize_put props) (Fulfilled {| put_ETag := Some "1" |})] /\
  put_IfNoneMatch (initialize_put props) = None /\
  objects (snd (fst res)) !! ("locks", "job")
  = Some {| object_body := JSON_stringify_locked false; object_etag := "1" |}.
Proof. vm_compute. repeat split. Qed.

(** ** Release *)

(** C2. Whatever call returned the handle, the last request of that call
    was the write that acquired, and [release] sends one request: a write
    to the same key whose [If-Match] is the tag that write returned; the
    caller of [release] gets the store's answer, an error as it was thrown.
    On the store, once any other write to the key has been accepted after
    the acquiring one, the store rejects the write of [release] with a
    precondition failure, [release] throws it, and the object stays as the
    other write left it. *)
Theorem release_writes_if_tag_unchanged `{JsonRuntime} (props : AcquireLock) :
  (forall (W : Type) (client : S3Client W) (w w' : W) (h : LockHandle) (tr : list Event),
     run (S3Lock.acquireLock props) w = (Fulfilled h, w', tr) ->
     exists (req : PutObjectInput) (out : PutObjectCommandOutput)
            (tr0 : list Event) (msg : string),
       tr = tr0 ++ [EvPut req (Fulfilled out); EvLog msg] /\
       put_Bucket req = bucket props /\ put_Key req = key props /\
       forall (newBody : string) (w2 : W),
         let put := release_put (bucket props) (key props) (put_ETag out) newBody in
         run (release h newBody) w2
         = (surfaced (fst (put_object put w2)), snd (put_object put w2),
            [EvPut put (fst (put_object put w2))])) /\
  (forall (s s1 s2 : S3Store) (h : LockHandle) (tr : list Event)
          (B : Type) (others : Async B) (r2 : Settled B) (tr2 : list Event)
          (newBody : string),
     store_wf s ->
     run (S3Lock.acquireLock props) s = (Fulfilled h, s1, tr) ->
     run others s1 = (r2, s2, tr2) ->
     wrote_to (bucket props) (key props) tr2 = true ->
     exists tag : string,
       run (release h newBody) s2
       = (Rejected PreconditionFailed, s2,
          [EvPut (release_put (bucket props) (key props) (Some tag) newBody)
             (Rejected PreconditionFailed)])).
Proof.
  split.
  - intros W client w w' h tr Hrun.
    destruct (acquireLock_acquired (fun _ => True) (fun _ _ _ => I) (fun _ _ _ => I)
                props w w' h tr Hrun I)
      as (req & out & w0 & tr0 & msg & _ & _ & Hb & Hk & -> & ->).
    exists req, out, tr0, msg. repeat split; [exact Hb|exact Hk|].
    intros newBody w2. apply run_release.
  - intros s s1 s2 h tr B others r2 tr2 newBody Hwf Hrun Hothers Hwrote.
    destruct (acquireLock_acquired store_wf store_get_wf store_put_wf
                props s s1 h tr Hrun Hwf)
      as (req & out & s0 & tr0 & msg & Hwf0 & Hput & Hb & Hk & -> & ->).
    simpl in Hput. apply store_put_accepted in Hput as [-> ->].
    destruct (run_store_progress (bucket props) (key props) others _ _ _ _ Hothers
                (store_write_wf req s0 Hwf0)) as (_ & _ & Hkey).
    rewrite Hwrote in Hkey. destruct Hkey as (o & n & Hlook & Htag & Hn).
    exists (fresh_etag s0). rewrite run_release. simpl.
    unfold store_put. simpl. rewrite Hlook.
    destruct (String.eqb_spec (object_etag o) (fresh_etag s0)) as [Heq|Hne].
    + exfalso. rewrite Htag in Heq. unfold fresh_etag in Heq.
      apply (inj pretty) in Heq. simpl in Hn. lia.
    + reflexivity.
Qed.

Lemma release_after_intruder_witness :
  let props := sample_props Absent None in
  let acquired := run (@S3Lock.acquireLock sample_runtime props) empty_store in
  let h := S3Lock.locked "locks" "job" (Some "0") in
  let meddled := run intruder (snd (fst acquired)) in
  (store_wf empty_store /\
   acquired = (Fulfilled h, snd (fst acquired), snd acquired) /\
   wrote_to "locks" "job" (snd meddled) = true) /\
  run (release h (JSON_stringify_locked false)) (snd (fst meddled))
  = (Rejected PreconditionFailed, snd (fst meddled),
     [EvPut (release_put "locks" "job" (Some "0") (JSON_stringify_locked false))
        (Rejected PreconditionFailed)]).
Proof.
  intros props acquired h meddled.
  assert (Hacq : acquired = (Fulfilled h, snd (fst acquired), snd acquired))
    by reflexivity.
  assert (Hwrote : wrote_to "locks" "job" (snd meddled) = true) by reflexivity.
  split; [split; [exact empty_store_wf|split; [exact Hacq|exact Hwrote]]|].
  destruct (proj2 (@release_writes_if_tag_unchanged sample_runtime props)
              empty_store (snd (fst acquired)) (snd (fst meddled)) h (snd acquired)
              unit intruder (fst (fst meddled)) (snd meddled)
              (JSON_stringify_locked false)
              empty_store_wf Hacq (triple_eta meddled) Hwrote) as [tag Hrel].
  rewrite Hrel. vm_compute in Hrel. injection Hrel as Htag. rewrite <- Htag.
  reflexivity.
Defined.

(** ** Two existence locks on one key *)

Lemma settles_within_step {W : Type} `{S3Client W} {A : Type} (n : nat)
    (p : Async A) (w : W) :
  settles_within n p -> settles_within (pred n) (fst (step p w)).
Proof.
  destruct p as [a|e|req k|req k|ms k|msg k]; simpl; try exact (fun _ => I).
  - destruct n as [|n]; [intros []|]. intros Hk.
    destruct (get_object req w) as [resp w1]. apply Hk.
  - destruct n as [|n]; [intros []|]. intros Hk.
    destruct (put_object req w) as [resp w1]. apply Hk.
  - destruct n as [|n]; [intros []|]. auto.
  - destruct n as [|n]; [intros []|]. auto.
Qed.

Lemma settles_within_0 {A : Type} (p : Async A) :
  settles_within 0 p -> exists r, outcome p = Some r.
Proof. destruct p; simpl; intros Hs; try destruct Hs; eauto. Qed.

Lemma run_schedule_settles {W : Type} `{S3Client W} {A B : Type}
    (schedule : list Caller) :
  forall (n m : nat) (p : Async A) (q : Async B) (w : W),
    settles_within n p -> settles_within m q ->
    settles_within (n - turns First schedule) (fst (fst (run_schedule schedule p q w))) /\
    settles_within (m - turns Second schedule) (snd (fst (run_schedule schedule p q w))).
Proof.
  induction schedule as [|c rest IH]; intros n m p q w Hp Hq.
  - simpl. rewrite !Nat.sub_0_r. auto.
  - destruct c; simpl.
    + pose proof (settles_within_step n p w Hp) as Hp1.
      destruct (step p w) as [p1 w1]. simpl in Hp1.
      destruct (IH (pred n) m p1 q w1 Hp1 Hq) as [Hp2 Hq2].
      unfold turns in *. simpl. split; [|exact Hq2].
      replace (n - S (length (List.filter (fun c' => bool_decide (c' = First)) rest)))%nat
        with (pred n - length (List.filter (fun c' => bool_decide (c' = First)) rest))%nat
        by lia.
      exact Hp2.
    + pose proof (settles_within_step m q w Hq) as Hq1.
      destruct (step q w) as [q1 w1]. simpl in Hq1.
      destruct (IH n (pred m) p q1 w1 Hp Hq1) as [Hp2 Hq2].
      unfold turns in *. simpl. split; [exact Hp2|].
      replace (m - S (length (List.filter (fun c' => bool_decide (c' = Second)) rest)))%nat
        with (pred m - length (List.filter (fun c' => bool_decide (c' = Second)) rest))%nat
        by lia.
      exact Hq2.
Qed.

Lemma existence_lock_unfolded (bucket key body : string) :
  S3Lock.existence_lock bucket key (Return body) =
  ConsoleLog ("Existence Lock: Writing to " +:+ bucket +:+ " " +:+ key)
    (existence_after_log bucket key body).
Proof. reflexivity. Qed.

Lemma existence_lock_settles (bucket key body : string) :
  settles_within 3 (S3Lock.existence_lock bucket key (Return body)).
Proof.
  simpl. intros [out|e]; simpl; [exact I|].
  destruct (is_PreconditionFailed e); exact I.
Qed.

Lemma racing_step_absent (bucket key body : string) (p : Async LockHandle)
    (s : S3Store) :
  Racing bucket key body p ->
  objects s !! (bucket, key) = None ->
  (Racing bucket key body (fst (step p s)) /\ snd (step p s) = s) \/
  (Won bucket key (fst (step p s)) /\ objects (snd (step p s)) !! (bucket, key) <> None).
Proof.
  intros [|] Habsent.
  - left. rewrite existence_lock_unfolded. simpl. split; [constructor|reflexivity].
  - right. unfold existence_after_log. simpl. unfold store_put. simpl.
    rewrite Habsent. simpl. split; [constructor|].
    rewrite lookup_insert_eq. discriminate.
Qed.

Lemma racing_step_present (bucket key body : string) (p : Async LockHandle)
    (s : S3Store) :
  Racing bucket key body p ->
  objects s !! (bucket, key) <> None ->
  (Racing bucket key body (fst (step p s)) \/ Lost (fst (step p s))) /\
  snd (step p s) = s.
Proof.
  intros [|] Hpresent.
  - rewrite existence_lock_unfolded. simpl. split; [left; constructor|reflexivity].
  - unfold existence_after_log. simpl. unfold store_put. simpl.
    destruct (objects s !! (bucket, key)) as [o|]; [|contradiction].
    simpl. split; [right; constructor|reflexivity].
Qed.

Lemma won_step (bucket key : string) (p : Async LockHandle) (s : S3Store) :
  Won bucket key p -> Won bucket key (fst (step p s)) /\ snd (step p s) = s.
Proof. intros [etag|etag]; simpl; split; (constructor || reflexivity). Qed.

Lemma lost_step (p : Async LockHandle) (s : S3Store) :
  Lost p -> Lost (fst (step p s)) /\ snd (step p s) = s.
Proof. intros []. simpl. split; [constructor|reflexivity]. Qed.

Lemma racing_unsettled (bucket key body : string) (p : Async LockHandle) :
  Racing bucket key body p -> outcome p = None.
Proof. intros [|]; reflexivity. Qed.

Lemma won_outcome (bucket key : string) (p : Async LockHandle) :
  Won bucket key p -> forall r, outcome p = Some r -> exists h, r = Fulfilled h.
Proof. intros [etag|etag] r; simpl; [discriminate|]. intros [= <-]. eauto. Qed.

Lemma lost_outcome (p : Async LockHandle) :
  Lost p -> outcome p = Some (Rejected LockNotAcquiredError).
Proof. intros []. reflexivity. Qed.

Lemma race_invariant_first (bucket key bodyA bodyB : string)
    (p q : Async LockHandle) (s : S3Store) :
  race_invariant bucket key bodyA bodyB p q s ->
  race_invariant bucket key bodyA bodyB (fst (step p s)) q (snd (step p s)).
Proof.
  intros [(Habsent & Hp & Hq)|[(Hpresent & Hp & Hq)|(Hpresent & Hp & Hq)]].
  - destruct (racing_step_absent _ _ _ _ s Hp Habsent) as [[Hp1 ->]|[Hp1 Hs1]].
    + left. auto.
    + right. left. auto.
  - destruct (won_step _ _ _ s Hp) as [Hp1 ->]. right. left. auto.
  - right. right. destruct Hp as [Hp|Hp].
    + destruct (racing_step_present _ _ _ _ s Hp Hpresent) as [Hp1 ->]. auto.
    + destruct (lost_step _ s Hp) as [Hp1 ->]. auto.
Qed.

Lemma race_invariant_second (bucket key bodyA bodyB : string)
    (p q : Async LockHandle) (s : S3Store) :
  race_invariant bucket key bodyA bodyB p q s ->
  race_invariant bucket key bodyA bodyB p (fst (step q s)) (snd (step q s)).
Proof.
  intros [(Habsent & Hp & Hq)|[(Hpresent & Hp & Hq)|(Hpresent & Hp & Hq)]].
  - destruct (racing_step_absent _ _ _ _ s Hq Habsent) as [[Hq1 ->]|[Hq1 Hs1]].
    + left. auto.
    + right. right. auto.
  - right. left. destruct Hq as [Hq|Hq].
    + destruct (racing_step_present _ _ _ _ s Hq Hpresent) as [Hq1 ->]. auto.
    + destruct (lost_step _ s Hq) as [Hq1 ->]. auto.
  - destruct (won_step _ _ _ s Hq) as [Hq1 ->]. right. right. auto.
Qed.

Lemma race_invariant_schedule (bucket key bodyA bodyB : string)
    (schedule : list Caller) :
  forall (p q : Async LockHandle) (s : S3Store),
    race_invariant bucket key bodyA bodyB p q s ->
    race_invariant bucket key bodyA bodyB
      (fst (fst (run_schedule schedule p q s)))
      (snd (fst (run_schedule schedule p q s)))
      (snd (run_schedule schedule p q s)).
Proof.
  induction schedule as [|c rest IH]; intros p q s Hinv; [exact Hinv|].
  destruct c; simpl.
  - pose proof (race_invariant_first _ _ _ _ _ _ _ Hinv) as Hnext.
    destruct (step p s) as [p1 s1]. apply IH. exact Hnext.
  - pose proof (race_invariant_second _ _ _ _ _ _ _ Hinv) as Hnext.
    destruct (step q s) as [q1 s1]. apply IH. exact Hnext.
Qed.

(** C1. Two existence locks on one key that holds no object, their steps
    interleaved in any order: at no point have both returned a handle, and
    once each has had the three steps it can take, one has returned a
    handle and the other has thrown [LockNotAcquiredError].  The store is
    the one whose must-not-exist write succeeds on a key without an object
    and is rejected with a precondition failure on a key with one. *)
Theorem existence_locks_exclude `{JsonRuntime} (propsA propsB : AcquireLock)
    (bodyA bodyB : string) (s : S3Store) (schedule : list Caller) :
  isCompareAndSwapLock propsA = false ->
  isCompareAndSwapLock propsB = false ->
  bucket propsB = bucket propsA ->
  key propsB = key propsA ->
  generator_of propsA = Return bodyA ->
  generator_of propsB = Return bodyB ->
  objects s !! (bucket propsA, key propsA) = None ->
  let after :=
    run_schedule schedule (S3Lock.acquireLock propsA) (S3Lock.acquireLock propsB) s in
  let p := fst (fst after) in
  let q := snd (fst after) in
  ~ (exists hA hB, outcome p = Some (Fulfilled hA) /\ outcome q = Some (Fulfilled hB)) /\
  ((3 <= turns First schedule)%nat ->
   (3 <= turns Second schedule)%nat ->
   (exists h, outcome p = Some (Fulfilled h) /\
              outcome q = Some (Rejected LockNotAcquiredError)) \/
   (exists h, outcome q = Some (Fulfilled h) /\
              outcome p = Some (Rejected LockNotAcquiredError))).
Proof.
  intros HmodeA HmodeB Hbucket Hkey HgenA HgenB Habsent after p q.
  subst p q after.
  rewrite (acquireLock_existence propsA HmodeA), (acquireLock_existence propsB HmodeB).
  rewrite HgenA, HgenB, Hbucket, Hkey.
  set (b := bucket propsA) in *. set (k := key propsA) in *.
  set (startA := S3Lock.existence_lock b k (Return bodyA)).
  set (startB := S3Lock.existence_lock b k (Return bodyB)).
  assert (Hinit : race_invariant b k bodyA bodyB startA startB s).
  { left. split; [exact Habsent|]. split; constructor. }
  pose proof (race_invariant_schedule b k bodyA bodyB schedule _ _ _ Hinit) as Hinv.
  destruct (run_schedule_settles schedule 3 3 startA startB s
              (existence_lock_settles b k bodyA) (existence_lock_settles b k bodyB))
    as [HsetA HsetB].
  destruct (run_schedule schedule startA startB s) as [[p q] s'].
  cbn [fst snd] in *.
  split.
  - intros (hA & hB & HoA & HoB).
    destruct Hinv as [(_ & Hp & _)|[(_ & _ & [Hq|Hq])|(_ & [Hp|Hp] & _)]].
    + rewrite (racing_unsettled _ _ _ _ Hp) in HoA. discriminate.
    + rewrite (racing_unsettled _ _ _ _ Hq) in HoB. discriminate.
    + rewrite (lost_outcome _ Hq) in HoB. discriminate.
    + rewrite (racing_unsettled _ _ _ _ Hp) in HoA. discriminate.
    + rewrite (lost_outcome _ Hp) in HoA. discriminate.
  - intros HturnsA HturnsB.
    replace (3 - turns First schedule)%nat with 0%nat in HsetA by lia.
    replace (3 - turns Second schedule)%nat with 0%nat in HsetB by lia.
    destruct (settles_within_0 p HsetA) as [rA HoA].
    destruct (settles_within_0 q HsetB) as [rB HoB].
    destruct Hinv as [(_ & Hp & _)|[(_ & Hp & [Hq|Hq])|(_ & [Hp|Hp] & Hq)]].
    + rewrite (racing_unsettled _ _ _ _ Hp) in HoA. discriminate.
    + rewrite (racing_unsettled _ _ _ _ Hq) in HoB. discriminate.
    + left. destruct (won_outcome _ _ _ Hp rA HoA) as [h ->].
      exists h. split; [exact HoA|apply lost_outcome; exact Hq].
    + rewrite (racing_unsettled _ _ _ _ Hp) in HoA. discriminate.
    + right. destruct (won_outcome _ _ _ Hq rB HoB) as [h ->].
      exists h. split; [exact HoB|apply lost_outcome; exact Hp].
Qed.

Lemma existence_locks_exclude_witness :
  let props := sample_props Absent None in
  let schedule := [First; Second; Second; First; Second; First] in
  let after :=
    run_schedule schedule (@S3Lock.acquireLock sample_runtime props)
      (@S3Lock.acquireLock sample_runtime props) empty_store in
  (isCompareAndSwapLock props = false /\
   generator_of props = Return (JSON_stringify_locked true) /\
   objects empty_store !! (bucket props, key props) = None /\
   (3 <= turns First schedule)%nat /\ (3 <= turns Second schedule)%nat) /\
  outcome (snd (fst after)) = Some (Fulfilled (S3Lock.locked "locks" "job" (Some "0"))) /\
  outcome (fst (fst after)) = Some (Rejected LockNotAcquiredError).
Proof.
  intros props schedule after.
  assert (HturnsA : (3 <= turns First schedule)%nat) by (vm_compute; lia).
  assert (HturnsB : (3 <= turns Second schedule)%nat) by (vm_compute; lia).
  split; [repeat split; assumption|].
  destruct (proj2 (@existence_locks_exclude sample_runtime props props
                     (JSON_stringify_locked true) (JSON_stringify_locked true)
                     empty_store schedule eq_refl eq_refl eq_refl eq_refl eq_refl
                     eq_refl eq_refl) HturnsA HturnsB)
    as [(h & HoA & _)|(h & HoB & HoA)].
  - vm_compute in HoA. discriminate HoA.
  - split; [|exact HoA]. reflexivity.
Defined.

(** * Further properties *)

(** ** One pass, with callbacks that leave the store alone *)

Lemma defaultConditional_store_free `{JsonRuntime} : store_free defaultConditional.
Proof.
  intros o. unfold defaultConditional.
  destruct (JSON_parse (default "{}" (Body o))) as [v|e]; simpl; eauto.
Qed.

Lemma reads_unlocked_store_free : store_free reads_unlocked.
Proof. intros o. left. eauto. Qed.

Lemma cas_attempt_cases {W : Type} `{S3Client W} (bucket key body : string)
    (cond : GetObjectCommandOutput -> Async bool) (timeout : Z) (w w' : W)
    (r : Settled (option LockHandle)) (tr : list Event) :
  store_free cond ->
  run (S3Lock.cas_attempt bucket key (Return body) cond timeout) w = (r, w', tr) ->
  let get := cas_get bucket key in
  (exists e,
     get_object get w = (Rejected e, w') /\ r = Rejected e /\
     tr = [cas_log bucket key; EvGet get (Rejected e)]) \/
  (exists o e,
     get_object get w = (Fulfilled o, w') /\ cond o = Throw e /\
     r = Rejected e /\
     tr = [cas_log bucket key; EvGet get (Fulfilled o)]) \/
  (exists o,
     get_object get w = (Fulfilled o, w') /\ cond o = Return false /\
     r = Fulfilled None /\
     tr = [cas_log bucket key; EvGet get (Fulfilled o); EvTimeout timeout]) \/
  (exists o w1 out,
     get_object get w = (Fulfilled o, w1) /\ cond o = Return true /\
     put_object (cas_put bucket key (ETag o) body) w1 = (Fulfilled out, w') /\
     r = Fulfilled (Some (S3Lock.locked bucket key (put_ETag out))) /\
     tr = [cas_log bucket key; EvGet get (Fulfilled o);
           EvPut (cas_put bucket key (ETag o) body) (Fulfilled out);
           EvLog "Compare and swap Lock acquired"]) \/
  (exists o w1 e,
     get_object get w = (Fulfilled o, w1) /\ cond o = Return true /\
     put_object (cas_put bucket key (ETag o) body) w1 = (Rejected e, w') /\
     is_PreconditionFailed e = true /\ r = Fulfilled None /\
     tr = [cas_log bucket key; EvGet get (Fulfilled o);
           EvPut (cas_put bucket key (ETag o) body) (Rejected e);
           EvTimeout timeout]) \/
  (exists o w1 e,
     get_object get w = (Fulfilled o, w1) /\ cond o = Return true /\
     put_object (cas_put bucket key (ETag o) body) w1 = (Rejected e, w') /\
     is_PreconditionFailed e = false /\ r = Rejected e /\
     tr = [cas_log bucket key; EvGet get (Fulfilled o);
           EvPut (cas_put bucket key (ETag o) body) (Rejected e)]).
Proof.
  intros Hfree Hrun get. subst get. revert Hrun. rewrite run_cas_attempt. cbv zeta.
  destruct (get_object (cas_get bucket key) w) as [[o|e] w1].
  - destruct (Hfree o) as [[c Hc]|[e Hc]]; rewrite Hc; simpl.
    + destruct c.
      * destruct (put_object _ w1) as [[out|e] w2] eqn:Hput.
        -- intros [= <- <- <-]. do 3 right. left. exists o, w1, out. auto 10.
        -- destruct (is_PreconditionFailed e) eqn:Hpf; intros [= <- <- <-].
           ++ do 4 right. left. exists o, w1, e. auto 10.
           ++ do 5 right. exists o, w1, e. auto 10.
      * intros [= <- <- <-]. do 2 right. left. exists o. auto.
    + intros [= <- <- <-]. right. left. exists o, e. auto.
  - intros [= <- <- <-]. left. exists e. auto.
Qed.

(** The ways a pass can end, for the bookkeeping below. *)
Lemma cas_attempt_counts {W : Type} `{S3Client W} (bucket key body : string)
    (cond : GetObjectCommandOutput -> Async bool) (timeout : Z) (w w' : W)
    (r : Settled (option LockHandle)) (tr : list Event) :
  store_free cond ->
  run (S3Lock.cas_attempt bucket key (Return body) cond timeout) w = (r, w', tr) ->
  length (reads tr) = 1%nat /\
  match r with
  | Fulfilled (Some _) =>
      waits tr = [] /\ length (accepted_writes tr) = 1%nat /\ waited tr = 0
  | Fulfilled None =>
      waits tr = [EvTimeout timeout] /\ accepted_writes tr = [] /\ waited tr = timeout
  | Rejected e =>
      waits tr = [] /\ accepted_writes tr = [] /\ waited tr = 0 /\
      (Forall well_answered tr -> exists o, cond o = Throw e)
  end.
Proof.
  intros Hfree Hrun.
  destruct (cas_attempt_cases _ _ _ _ _ _ _ _ _ Hfree Hrun)
    as [(e & _ & -> & ->)|[(o & e & _ & Hc & -> & ->)|[(o & _ & _ & -> & ->)
       |[(o & w0 & out & _ & _ & _ & -> & ->)
       |[(o & w0 & e & _ & _ & _ & Hpf & -> & ->)|(o & w0 & e & _ & _ & _ & Hpf & -> & ->)]]]]];
    simpl; repeat split; try lia.
  - intros Hall. apply Forall_cons_1 in Hall as [_ Hall].
    apply Forall_cons_1 in Hall as [[] _].
  - intros _. eauto.
  - intros Hall. do 2 (apply Forall_cons_1 in Hall as [_ Hall]).
    apply Forall_cons_1 in Hall as [Habs _]. simpl in Habs. congruence.
Qed.

Lemma waits_app (tr1 tr2 : list Event) : waits (tr1 ++ tr2) = waits tr1 ++ waits tr2.
Proof. unfold waits. induction tr1 as [|ev tr1 IH]; simpl; [reflexivity|].
  destruct (is_wait ev); simpl; rewrite IH; reflexivity. Qed.

Lemma accepted_writes_app (tr1 tr2 : list Event) :
  accepted_writes (tr1 ++ tr2) = accepted_writes tr1 ++ accepted_writes tr2.
Proof. unfold accepted_writes. induction tr1 as [|ev tr1 IH]; simpl; [reflexivity|].
  destruct (is_accepted ev); simpl; rewrite IH; reflexivity. Qed.

Lemma waited_app (tr1 tr2 : list Event) : waited (tr1 ++ tr2) = waited tr1 + waited tr2.
Proof. induction tr1 as [|ev tr1 IH]; simpl; [reflexivity|].
  destruct ev; simpl; lia. Qed.

(** What a whole call adds up to: its waits, reads and accepted writes, and
    how it ends when the store only ever answers as a store under
    contention does. *)
Lemma cas_loop_summary {W : Type} `{S3Client W} (bucket key body : string)
    (cond : GetObjectCommandOutput -> Async bool) (timeout : Z) (n : nat) :
  store_free cond ->
  forall (attempt : Z) (w w' : W) (r : Settled LockHandle) (tr : list Event),
    Z.to_nat attempt = n ->
    run (S3Lock.cas_loop bucket key (Return body) cond timeout attempt) w = (r, w', tr) ->
    (length (waits tr) <= length (reads tr) <= n)%nat /\
    waited tr = Z.of_nat (length (waits tr)) * timeout /\
    length (accepted_writes tr) = (match r with Fulfilled _ => 1 | Rejected _ => 0 end)%nat /\
    (Forall well_answered tr ->
     (exists h, r = Fulfilled h /\ S (length (waits tr)) = length (reads tr)) \/
     (r = Rejected LockNotAcquiredError /\
      length (reads tr) = n /\ length (waits tr) = n) \/
     (exists o e, cond o = Throw e /\ r = Rejected e)).
Proof.
  intros Hfree. induction n as [|n IH]; intros attempt w w' r tr Hn Hrun.
  - rewrite run_cas_loop_exhausted in Hrun by lia. injection Hrun as <- <- <-.
    simpl. repeat split; try lia. intros _. right. left. auto.
  - rewrite run_cas_loop_iterate in Hrun by lia.
    destruct (run (S3Lock.cas_attempt bucket key (Return body) cond timeout) w)
      as [[ra w1] tr1] eqn:Hattempt.
    destruct (cas_attempt_counts _ _ _ _ _ _ _ _ _ Hfree Hattempt) as [Hone Hkind].
    destruct ra as [[lock|]|e].
    + destruct Hkind as (Hw & Ha & Hd). injection Hrun as <- <- <-.
      rewrite Hw, Ha, Hd, Hone. simpl. repeat split; try lia.
      intros _. left. eauto.
    + destruct Hkind as (Hw & Ha & Hd).
      destruct (run (S3Lock.cas_loop _ _ _ _ _ _) w1) as [[r2 w2] tr2] eqn:Hrest.
      injection Hrun as <- <- <-.
      destruct (IH (attempt - 1) w1 w2 r2 tr2 ltac:(lia) Hrest)
        as (Hle & Hwaited & Hacc & Hend).
      rewrite waits_app, reads_app, accepted_writes_app, waited_app, !length_app.
      rewrite Hw, Ha, Hd, Hone, Hwaited. simpl.
      split; [lia|]. split; [lia|]. split; [exact Hacc|].
      intros Hall. apply Forall_app in Hall as [_ Hall].
      destruct (Hend Hall) as [(h & -> & Hs)|[(-> & Hr & Hwt)|(o & e & Hc & ->)]].
      * left. exists h. split; [reflexivity|lia].
      * right. left. repeat split; lia.
      * right. right. eauto.
    + destruct Hkind as (Hw & Ha & Hd & Hthrow). injection Hrun as <- <- <-.
      rewrite Hw, Ha, Hd, Hone. simpl. repeat split; try lia.
      intros Hall. right. right. destruct (Hthrow Hall) as [o Hc]. eauto.
Qed.

(** ** The compare-and-swap call as a whole *)

(** X1. A compare-and-swap call with an attempt to spend, whose first read
    is answered, whose predicate says yes to the answer and whose write the
    store accepts, is over after that one pass: it has logged, read,
    written under [If-Match] the tag it read, with the generated body, and
    logged again, without waiting, and it returns the handle made with the
    tag the write got. *)
Theorem cas_acquires_under_the_tag_read `{JsonRuntime} {W : Type} `{S3Client W}
    (props : AcquireLock) (body : string) (w w1 w2 : W)
    (o : GetObjectCommandOutput) (out : PutObjectCommandOutput) :
  isCompareAndSwapLock props = true ->
  attempts_of props > 0 ->
  generator_of props = Return body ->
  get_object (cas_get (bucket props) (key props)) w = (Fulfilled o, w1) ->
  predicate_of props o = Return true ->
  put_object (cas_put (bucket props) (key props) (ETag o) body) w1 = (Fulfilled out, w2) ->
  run (S3Lock.acquireLock props) w
  = (Fulfilled (S3Lock.locked (bucket props) (key props) (put_ETag out)), w2,
     [cas_log (bucket props) (key props);
      EvGet (cas_get (bucket props) (key props)) (Fulfilled o);
      EvPut (cas_put (bucket props) (key props) (ETag o) body) (Fulfilled out);
      EvLog "Compare and swap Lock acquired"]).
Proof.
  intros Hmode Hpos Hgen Hget Hcond Hput.
  rewrite (acquireLock_cas props Hmode), Hgen.
  rewrite run_cas_loop_iterate by exact Hpos.
  rewrite run_cas_attempt, Hget, Hcond. simpl. rewrite Hput. reflexivity.
Qed.

Lemma cas_acquires_witness :
  let props := sample_props Undefined None in
  let o := {| Body := Some (JSON_stringify_locked false); ETag := Some "0" |} in
  (isCompareAndSwapLock props = true /\ attempts_of props > 0 /\
   @predicate_of sample_runtime props o = Return true) /\
  fst (fst (run (@S3Lock.acquireLock sample_runtime props) unlocked_store))
  = Fulfilled (S3Lock.locked "locks" "job" (Some "1")).
Proof.
  intros props o. split; [split; [reflexivity|split; [reflexivity|reflexivity]]|].
  assert (Hget : get_object (cas_get (bucket props) (key props)) unlocked_store
                 = (Fulfilled o, unlocked_store)) by reflexivity.
  assert (Hput : put_object (cas_put (bucket props) (key props) (ETag o)
                               (JSON_stringify_locked true)) unlocked_store
                 = store_write (cas_put "locks" "job" (Some "0")
                                  (JSON_stringify_locked true)) unlocked_store)
    by reflexivity.
  rewrite (@cas_acquires_under_the_tag_read sample_runtime S3Store _ props
             (JSON_stringify_locked true) unlocked_store unlocked_store _
             o _ eq_refl eq_refl eq_refl Hget eq_refl Hput).
  reflexivity.
Defined.

(** X2. Whichever way it acquires, a call whose callbacks leave the store
    alone has had exactly one write accepted if it returns a handle and
    none if it throws: it never writes twice, and it never gives up after
    a write of its own has gone through. *)
Theorem acquire_accepts_one_write_or_none `{JsonRuntime} {W : Type} `{S3Client W}
    (props : AcquireLock) (body : string) (w w' : W)
    (r : Settled LockHandle) (tr : list Event) :
  generator_of props = Return body ->
  store_free (predicate_of props) ->
  run (S3Lock.acquireLock props) w = (r, w', tr) ->
  length (accepted_writes tr)
  = (match r with Fulfilled _ => 1 | Rejected _ => 0 end)%nat.
Proof.
  intros Hgen Hfree Hrun.
  destruct (isCompareAndSwapLock props) eqn:Hmode.
  - rewrite (acquireLock_cas props Hmode), Hgen in Hrun.
    exact (proj1 (proj2 (proj2 (cas_loop_summary _ _ _ _ _ _ Hfree _ _ _ _ _ eq_refl Hrun)))).
  - rewrite (acquireLock_existence props Hmode), Hgen, run_existence_lock in Hrun.
    simpl in Hrun.
    destruct (put_object _ w) as [[out|e] w1]; injection Hrun as <- <- <-; reflexivity.
Qed.

Lemma acquire_accepts_witness :
  let props := sample_props Undefined (Some 2) in
  let res := @run _ Scripted_client _ (@S3Lock.acquireLock sample_runtime props)
               beaten_script in
  (generator_of props = Return (JSON_stringify_locked true) /\
   store_free (@predicate_of sample_runtime props)) /\
  fst (fst res) = Rejected LockNotAcquiredError /\
  accepted_writes (snd res) = [].
Proof.
  intros props res.
  assert (Hfree : store_free (@predicate_of sample_runtime props))
    by exact (@defaultConditional_store_free sample_runtime).
  split; [split; [reflexivity|exact Hfree]|].
  assert (Hr : fst (fst res) = Rejected LockNotAcquiredError) by reflexivity.
  split; [exact Hr|].
  pose proof (@acquire_accepts_one_write_or_none sample_runtime _ Scripted_client props
                (JSON_stringify_locked true) beaten_script (snd (fst res))
                (fst (fst res)) (snd res) eq_refl Hfree (triple_eta res)) as Hcount.
  rewrite Hr in Hcount. apply nil_length_inv. exact Hcount.
Defined.

(** X3. A compare-and-swap call whose callbacks leave the store alone
    waits at most once per read and reads at most [maxAttempts] times, and
    every wait is the delay it was given: the time it spends waiting is the
    number of waits times the delay, hence never more than [maxAttempts]
    delays. *)
Theorem cas_waiting_is_bounded `{JsonRuntime} {W : Type} `{S3Client W}
    (props : AcquireLock) (body : string) (w w' : W)
    (r : Settled LockHandle) (tr : list Event) :
  isCompareAndSwapLock props = true ->
  generator_of props = Return body ->
  store_free (predicate_of props) ->
  run (S3Lock.acquireLock props) w = (r, w', tr) ->
  (length (waits tr) <= length (reads tr) <= Z.to_nat (attempts_of props))%nat /\
  waited tr = Z.of_nat (length (waits tr)) * timeout_of props /\
  (0 <= timeout_of props ->
   waited tr <= Z.max 0 (attempts_of props) * timeout_of props).
Proof.
  intros Hmode Hgen Hfree Hrun.
  rewrite (acquireLock_cas props Hmode), Hgen in Hrun.
  destruct (cas_loop_summary _ _ _ _ _ _ Hfree _ _ _ _ _ eq_refl Hrun)
    as (Hle & Hwaited & _ & _).
  split; [exact Hle|]. split; [exact Hwaited|].
  intros Hdelay. rewrite Hwaited. apply Z.mul_le_mono_nonneg_r; [exact Hdelay|lia].
Qed.

Lemma cas_waiting_witness :
  let props := sample_props Undefined (Some 2) in
  let res := @run _ Scripted_client _ (@S3Lock.acquireLock sample_runtime props)
               beaten_script in
  (isCompareAndSwapLock props = true /\
   generator_of props = Return (JSON_stringify_locked true) /\
   store_free (@predicate_of sample_runtime props) /\ 0 <= timeout_of props) /\
  waited (snd res) <= 2 * 5000.
Proof.
  intros props res.
  assert (Hfree : store_free (@predicate_of sample_runtime props))
    by exact (@defaultConditional_store_free sample_runtime).
  assert (Hdelay : 0 <= timeout_of props) by (vm_compute; discriminate).
  split; [split; [reflexivity|split; [reflexivity|split; [exact Hfree|exact Hdelay]]]|].
  exact (proj2 (proj2 (@cas_waiting_is_bounded sample_runtime _ Scripted_client props
                         (JSON_stringify_locked true) beaten_script (snd (fst res))
                         (fst (fst res)) (snd res) eq_refl eq_refl Hfree
                         (triple_eta res))) Hdelay).
Defined.

(** X4. When every read of a compare-and-swap call is answered and every
    write the store turns down is turned down for its precondition, the
    call ends in one of three ways: with a handle, having waited once for
    every read but the last; with the error its predicate threw; or with
    [LockNotAcquiredError], and then it has read and waited exactly
    [maxAttempts] times, whether the passes were refused by the predicate
    or lost to another writer. *)
Theorem cas_gives_up_only_after_every_attempt `{JsonRuntime} {W : Type} `{S3Client W}
    (props : AcquireLock) (body : string) (w w' : W)
    (r : Settled LockHandle) (tr : list Event) :
  isCompareAndSwapLock props = true ->
  generator_of props = Return body ->
  store_free (predicate_of props) ->
  run (S3Lock.acquireLock props) w = (r, w', tr) ->
  Forall well_answered tr ->
  (exists h, r = Fulfilled h /\ S (length (waits tr)) = length (reads tr)) \/
  (r = Rejected LockNotAcquiredError /\
   length (reads tr) = Z.to_nat (attempts_of props) /\
   length (waits tr) = Z.to_nat (attempts_of props)) \/
  (exists o e, predicate_of props o = Throw e /\ r = Rejected e).
Proof.
  intros Hmode Hgen Hfree Hrun Hall.
  rewrite (acquireLock_cas props Hmode), Hgen in Hrun.
  exact (proj2 (proj2 (proj2 (cas_loop_summary _ _ _ _ _ _ Hfree _ _ _ _ _ eq_refl Hrun)))
           Hall).
Qed.

Lemma cas_gives_up_witness :
  let props := sample_props Undefined (Some 2) in
  let res := @run _ Scripted_client _ (@S3Lock.acquireLock sample_runtime props)
               beaten_script in
  (isCompareAndSwapLock props = true /\
   generator_of props = Return (JSON_stringify_locked true) /\
   store_free (@predicate_of sample_runtime props) /\
   Forall well_answered (snd res)) /\
  fst (fst res) = Rejected LockNotAcquiredError /\
  length (reads (snd res)) = 2%nat /\ length (waits (snd res)) = 2%nat.
Proof.
  intros props res.
  assert (Hfree : store_free (@predicate_of sample_runtime props))
    by exact (@defaultConditional_store_free sample_runtime).
  assert (Hall : Forall well_answered (snd res)) by (vm_compute; repeat constructor).
  split; [split; [reflexivity|split; [reflexivity|split; [exact Hfree|exact Hall]]]|].
  destruct (@cas_gives_up_only_after_every_attempt sample_runtime _ Scripted_client props
              (JSON_stringify_locked true) beaten_script (snd (fst res))
              (fst (fst res)) (snd res) eq_refl eq_refl Hfree (triple_eta res) Hall)
    as [(h & Hr & _)|[(Hr & Hreads & Hwaits)|(o & e & _ & Hr)]].
  - vm_compute in Hr. discriminate Hr.
  - split; [exact Hr|split; [exact Hreads|exact Hwaits]].
  - split; [reflexivity|split; reflexivity].
Defined.

(** ** Errors of the callbacks *)

(** X5. The predicate is called outside the [try]: whatever it throws,
    an error named [PreconditionFailed] included, ends the call at once
    with that error, after the one read and before any write or wait. *)
Theorem cas_predicate_error_ends_the_call `{JsonRuntime} {W : Type} `{S3Client W}
    (props : AcquireLock) (w w1 : W) (o : GetObjectCommandOutput) (e : JsError) :
  isCompareAndSwapLock props = true ->
  attempts_of props > 0 ->
  get_object (cas_get (bucket props) (key props)) w = (Fulfilled o, w1) ->
  predicate_of props o = Throw e ->
  run (S3Lock.acquireLock props) w
  = (Rejected e, w1,
     [cas_log (bucket props) (key props);
      EvGet (cas_get (bucket props) (key props)) (Fulfilled o)]).
Proof.
  intros Hmode Hpos Hget Hcond.
  rewrite (acquireLock_cas props Hmode).
  rewrite run_cas_loop_iterate by exact Hpos.
  rewrite run_cas_attempt, Hget, Hcond. reflexivity.
Qed.

Lemma cas_predicate_error_witness :
  let props := sample_props Undefined None in
  let o := {| Body := Some "locked"; ETag := Some "0" |} in
  (isCompareAndSwapLock props = true /\ attempts_of props > 0 /\
   get_object (cas_get (bucket props) (key props)) garbled_store
   = (Fulfilled o, garbled_store) /\
   @predicate_of sample_runtime props o
   = Throw (ErrorObject "SyntaxError" "Unexpected token")) /\
  fst (fst (run (@S3Lock.acquireLock sample_runtime props) garbled_store))
  = Rejected (ErrorObject "SyntaxError" "Unexpected token").
Proof.
  intros props o.
  assert (Hget : get_object (cas_get (bucket props) (key props)) garbled_store
                 = (Fulfilled o, garbled_store)) by reflexivity.
  assert (Hcond : @predicate_of sample_runtime props o
                  = Throw (ErrorObject "SyntaxError" "Unexpected token"))
    by reflexivity.
  split; [split; [reflexivity|split; [reflexivity|split; [exact Hget|exact Hcond]]]|].
  rewrite (@cas_predicate_error_ends_the_call sample_runtime S3Store _ props
             garbled_store garbled_store o _ eq_refl eq_refl Hget Hcond).
  reflexivity.
Defined.

(** X6. The body is generated inside the [try], before the write is
    sent, so a generator that throws sends no write and its error goes
    through the [catch].  An existence lock then throws the error, or
    [LockNotAcquiredError] if the error is named [PreconditionFailed],
    having sent the store nothing.  A compare-and-swap pass throws the
    error on, unless it is named [PreconditionFailed]: that one is taken
    for a lost race, and the pass waits and goes round again. *)
Theorem generator_error_sends_no_write `{JsonRuntime} {W : Type} `{S3Client W}
    (props : AcquireLock) (e : JsError) :
  generator_of props = Throw e ->
  (isCompareAndSwapLock props = false ->
   forall w : W,
     run (S3Lock.acquireLock props) w
     = (Rejected (rethrown e), w, [existence_log (bucket props) (key props)])) /\
  (isCompareAndSwapLock props = true ->
   attempts_of props > 0 ->
   forall (w w1 : W) (o : GetObjectCommandOutput),
     get_object (cas_get (bucket props) (key props)) w = (Fulfilled o, w1) ->
     predicate_of props o = Return true ->
     let seen := [cas_log (bucket props) (key props);
                  EvGet (cas_get (bucket props) (key props)) (Fulfilled o)] in
     (is_PreconditionFailed e = false ->
      run (S3Lock.acquireLock props) w = (Rejected e, w1, seen)) /\
     (is_PreconditionFailed e = true ->
      run (S3Lock.acquireLock props) w
      = (let '(r, w2, tr) :=
           run (S3Lock.cas_loop (bucket props) (key props) (Throw e)
                  (predicate_of props) (timeout_of props) (attempts_of props - 1)) w1 in
         (r, w2, seen ++ [EvTimeout (timeout_of props)] ++ tr)))).
Proof.
  intros Hgen. split.
  - intros Hmode w.
    rewrite (acquireLock_existence props Hmode), Hgen, run_existence_lock. reflexivity.
  - intros Hmode Hpos w w1 o Hget Hcond seen. subst seen.
    rewrite (acquireLock_cas props Hmode), Hgen.
    rewrite run_cas_loop_iterate by exact Hpos.
    rewrite run_cas_attempt, Hget, Hcond. simpl.
    split; intros Hpf; rewrite Hpf; [reflexivity|].
    destruct (run (S3Lock.cas_loop _ _ _ _ _ _) w1) as [[r w2] tr]. reflexivity.
Qed.

Lemma generator_error_witness :
  let props := {| bucket := "locks"; key := "job";
                  generateBody := Some (Throw OutOfIds);
                  conditional := Absent; maxAttempts := None; timeout := None |} in
  (generator_of props = Throw OutOfIds /\ isCompareAndSwapLock props = false) /\
  run (@S3Lock.acquireLock sample_runtime props) empty_store
  = (Rejected OutOfIds, empty_store, [existence_log "locks" "job"]).
Proof.
  intros props. split; [split; reflexivity|].
  exact (proj1 (@generator_error_sends_no_write sample_runtime S3Store _ props
                  OutOfIds eq_refl) eq_refl empty_store).
Defined.

(** ** The initializer against any client *)

(** X7. [initializeLockFile] sends the store one write and nothing else:
    no read before it, no wait, no second try.  If the store accepts the
    write the call returns; if the store rejects it, the call throws
    [LockNotAcquiredError] for an error named [PreconditionFailed] and the
    store's own error for any other. *)
Theorem initializeLockFile_sends_one_write {W : Type} `{S3Client W}
    (props : InitializeLockFile) (w : W) :
  let put := initialize_put props in
  let resp := fst (put_object put w) in
  run (S3Lock.initializeLockFile props) w
  = (match resp with
     | Fulfilled _ => Fulfilled tt
     | Rejected e => Rejected (rethrown e)
     end, snd (put_object put w), [EvPut put resp]).
Proof.
  simpl. unfold initialize_put, rethrown.
  destruct (put_object _ w) as [[out|e] w1]; simpl; [reflexivity|].
  destruct (is_PreconditionFailed e); reflexivity.
Qed.

(** ** Handles on the store *)

(** The handle of a call that succeeded on the store carries the tag of
    the last write accepted, and the key holds that tag. *)
Lemma acquired_on_store `{JsonRuntime} (props : AcquireLock) (s s1 : S3Store)
    (h : LockHandle) (tr : list Event) :
  store_wf s ->
  run (S3Lock.acquireLock props) s = (Fulfilled h, s1, tr) ->
  exists (n0 : nat) (body : string),
    h = S3Lock.locked (bucket props) (key props) (Some (pretty n0)) /\
    objects s1 !! (bucket props, key props)
    = Some {| object_body := body; object_etag := pretty n0 |} /\
    accepted s1 = S n0 /\ store_wf s1.
Proof.
  intros Hwf Hrun.
  destruct (acquireLock_acquired store_wf store_get_wf store_put_wf
              props s s1 h tr Hrun Hwf)
    as (req & out & s0 & tr0 & msg & Hwf0 & Hput & Hb & Hk & -> & ->).
  simpl in Hput. apply store_put_accepted in Hput as [-> ->].
  exists (accepted s0), (put_Body req).
  split; [reflexivity|]. split; [|split; [reflexivity|apply store_write_wf; exact Hwf0]].
  unfold store_write. cbn [snd objects]. rewrite Hb, Hk, lookup_insert_eq. reflexivity.
Qed.

Lemma release_on_store (bucket key tag newBody : string) (s : S3Store) (o : S3Object) :
  objects s !! (bucket, key) = Some o ->
  let put := release_put bucket key (Some tag) newBody in
  run (release (S3Lock.locked bucket key (Some tag)) newBody) s
  = if String.eqb (object_etag o) tag
    then (Fulfilled tt, snd (store_write put s),
          [EvPut put (Fulfilled {| put_ETag := Some (fresh_etag s) |})])
    else (Rejected PreconditionFailed, s, [EvPut put (Rejected PreconditionFailed)]).
Proof.
  intros Hlook put. subst put. rewrite run_release. simpl.
  unfold store_put. simpl. rewrite Hlook.
  destruct (String.eqb (object_etag o) tag); reflexivity.
Qed.

(** Nothing the library can send takes an object away. *)
Lemma run_store_keeps_keys {A : Type} (p : Async A) (k : string * string) :
  forall (s s' : S3Store) (r : Settled A) (tr : list Event),
    run p s = (r, s', tr) ->
    objects s !! k <> None -> objects s' !! k <> None.
Proof.
  induction p as [a|e|req c IH|req c IH|ms c IH|msg c IH]; intros s s' r tr; simpl.
  - intros [= <- <- <-]. auto.
  - intros [= <- <- <-]. auto.
  - pose proof (store_get_unchanged req s) as Hsame.
    destruct (store_get req s) as [resp s1]. simpl in Hsame. subst s1.
    destruct (run (c resp) s) as [[r2 s2] tr2] eqn:Hc.
    intros [= <- <- <-]. eapply IH. exact Hc.
  - destruct (store_put_cases req s) as [Hput|[e Hput]]; rewrite Hput.
    + assert (Hobj : objects (snd (store_write req s))
                     = <[(put_Bucket req, put_Key req) :=
                           {| object_body := put_Body req; object_etag := fresh_etag s |}]>
                         (objects s)) by reflexivity.
      destruct (store_write req s) as [resp s1]. cbn [snd] in Hobj.
      destruct (run (c resp) s1) as [[r2 s2] tr2] eqn:Hc.
      intros [= <- <- <-] Hpresent. eapply IH; [exact Hc|].
      rewrite Hobj. destruct (decide ((put_Bucket req, put_Key req) = k)) as [->|Hne].
      * rewrite lookup_insert_eq. discriminate.
      * rewrite lookup_insert_ne by exact Hne. exact Hpresent.
    + destruct (run (c _) s) as [[r2 s2] tr2] eqn:Hc.
      intros [= <- <- <-]. eapply IH. exact Hc.
  - destruct (run c s) as [[r2 s2] tr2] eqn:Hc.
    intros [= <- <- <-]. eapply IH. exact Hc.
  - destruct (run c s) as [[r2 s2] tr2] eqn:Hc.
    intros [= <- <- <-]. eapply IH. exact Hc.
Qed.

(** X8. On the store, a handle whose key no one has written to since the
    call that returned it releases: the store accepts the write, [release]
    returns, and the key holds the new body under a tag of its own. *)
Theorem release_succeeds_on_untouched_key `{JsonRuntime} (props : AcquireLock)
    (s s1 s2 : S3Store) (h : LockHandle) (tr : list Event)
    (B : Type) (others : Async B) (r2 : Settled B) (tr2 : list Event)
    (newBody : string) :
  store_wf s ->
  run (S3Lock.acquireLock props) s = (Fulfilled h, s1, tr) ->
  run others s1 = (r2, s2, tr2) ->
  wrote_to (bucket props) (key props) tr2 = false ->
  exists s3 tag,
    run (release h newBody) s2
    = (Fulfilled tt, s3,
       [EvPut (release_put (bucket props) (key props) (Some tag) newBody)
          (Fulfilled {| put_ETag := Some (fresh_etag s2) |})]) /\
    objects s3 !! (bucket props, key props)
    = Some {| object_body := newBody; object_etag := fresh_etag s2 |}.
Proof.
  intros Hwf Hrun Hothers Hquiet.
  destruct (acquired_on_store props s s1 h tr Hwf Hrun)
    as (n0 & body & -> & Hlook & Hacc & Hwf1).
  destruct (run_store_progress (bucket props) (key props) others _ _ _ _ Hothers Hwf1)
    as (_ & _ & Hkey).
  rewrite Hquiet, Hlook in Hkey.
  eexists _, (pretty n0). rewrite (release_on_store _ _ _ _ _ _ Hkey). simpl.
  rewrite String.eqb_refl. split; [reflexivity|].
  unfold store_write. cbn [snd objects put_Bucket put_Key release_put].
  rewrite lookup_insert_eq. reflexivity.
Qed.

Lemma release_succeeds_witness :
  let props := sample_props Absent None in
  let acquired := run (@S3Lock.acquireLock sample_runtime props) empty_store in
  let h := S3Lock.locked "locks" "job" (Some "0") in
  let s1 := snd (fst acquired) in
  (store_wf empty_store /\
   acquired = (Fulfilled h, s1, snd acquired) /\
   wrote_to "locks" "job" (snd (run (Return tt) s1)) = false) /\
  fst (fst (run (release h (JSON_stringify_locked false)) s1)) = Fulfilled tt.
Proof.
  intros props acquired h s1.
  assert (Hacq : acquired = (Fulfilled h, s1, snd acquired)) by reflexivity.
  split; [split; [exact empty_store_wf|split; [exact Hacq|reflexivity]]|].
  destruct (@release_succeeds_on_untouched_key sample_runtime props empty_store s1 s1 h
              (snd acquired) unit (Return tt) (Fulfilled tt) []
              (JSON_stringify_locked false) empty_store_wf Hacq eq_refl eq_refl)
    as (s3 & tag & Hrel & _).
  rewrite Hrel. reflexivity.
Defined.

(** X9. A handle releases once.  On the store, after a [release] that
    returned, every later [release] of the same handle is rejected with a
    precondition failure, whatever was written to the key in between, and
    leaves the store as it finds it. *)
Theorem release_only_once `{JsonRuntime} (props : AcquireLock)
    (s s1 s2 s3 s4 : S3Store) (h : LockHandle) (tr tr1 tr2 tr3 : list Event)
    (B C : Type) (before : Async B) (rb : Settled B) (between : Async C) (rc : Settled C)
    (firstBody secondBody : string) :
  store_wf s ->
  run (S3Lock.acquireLock props) s = (Fulfilled h, s1, tr) ->
  run before s1 = (rb, s2, tr1) ->
  run (release h firstBody) s2 = (Fulfilled tt, s3, tr2) ->
  run between s3 = (rc, s4, tr3) ->
  exists tag,
    run (release h secondBody) s4
    = (Rejected PreconditionFailed, s4,
       [EvPut (release_put (bucket props) (key props) (Some tag) secondBody)
          (Rejected PreconditionFailed)]).
Proof.
  intros Hwf Hrun Hbefore Hfirst Hbetween.
  destruct (acquired_on_store props s s1 h tr Hwf Hrun)
    as (n0 & body & -> & Hlook & Hacc & Hwf1).
  destruct (run_store_progress (bucket props) (key props) before _ _ _ _ Hbefore Hwf1)
    as (Hwf2 & Hle12 & _).
  destruct (run_store_progress (bucket props) (key props)
              (release (S3Lock.locked (bucket props) (key props) (Some (pretty n0)))
                 firstBody) _ _ _ _ Hfirst Hwf2) as (Hwf3 & Hle23 & Hkey3).
  rewrite run_release in Hfirst. injection Hfirst as Hok Hs3 Htr2.
  assert (Hwrote : wrote_to (bucket props) (key props) tr2 = true).
  { rewrite <- Htr2. simpl in *.
    destruct (store_put _ s2) as [[out|e] sx]; [|discriminate Hok].
    simpl. rewrite !String.eqb_refl. reflexivity. }
  rewrite Hwrote in Hkey3. destruct Hkey3 as (o3 & n3 & Hlook3 & Htag3 & Hn3).
  destruct (run_store_progress (bucket props) (key props) between _ _ _ _ Hbetween Hwf3)
    as (_ & _ & Hkey4).
  assert (Hnewer : exists o4 n4, objects s4 !! (bucket props, key props) = Some o4 /\
                                 object_etag o4 = pretty n4 /\ (n0 < n4)%nat).
  { destruct (wrote_to (bucket props) (key props) tr3).
    - destruct Hkey4 as (o4 & n4 & Hlook4 & Htag4 & Hn4). exists o4, n4.
      repeat split; [exact Hlook4|exact Htag4|lia].
    - exists o3, n3. rewrite Hkey4. repeat split; [exact Hlook3|exact Htag3|lia]. }
  destruct Hnewer as (o4 & n4 & Hlook4 & Htag4 & Hlt).
  exists (pretty n0). rewrite (release_on_store _ _ _ _ _ _ Hlook4). simpl.
  destruct (String.eqb_spec (object_etag o4) (pretty n0)) as [Heq|Hne]; [|reflexivity].
  rewrite Htag4 in Heq. apply (inj pretty) in Heq. lia.
Qed.

Lemma release_only_once_witness :
  let props := sample_props Absent None in
  let acquired := run (@S3Lock.acquireLock sample_runtime props) empty_store in
  let h := S3Lock.locked "locks" "job" (Some "0") in
  let s1 := snd (fst acquired) in
  let released := run (release h (JSON_stringify_locked false)) s1 in
  let s3 := snd (fst released) in
  (store_wf empty_store /\
   acquired = (Fulfilled h, s1, snd acquired) /\
   released = (Fulfilled tt, s3, snd released)) /\
  fst (fst (run (release h (JSON_stringify_locked false)) s3))
  = Rejected PreconditionFailed.
Proof.
  intros props acquired h s1 released s3.
  assert (Hacq : acquired = (Fulfilled h, s1, snd acquired)) by reflexivity.
  assert (Hrel : released = (Fulfilled tt, s3, snd released)) by reflexivity.
  split; [split; [exact empty_store_wf|split; [exact Hacq|exact Hrel]]|].
  destruct (@release_only_once sample_runtime props empty_store s1 s1 s3 s3 h
              (snd acquired) [] (snd released) [] unit unit (Return tt) (Fulfilled tt)
              (Return tt) (Fulfilled tt)
              (JSON_stringify_locked false) (JSON_stringify_locked false)
              empty_store_wf Hacq eq_refl Hrel eq_refl)
    as (tag & Hagain).
  rewrite Hagain. reflexivity.
Defined.

(** ** Calls on the store *)

Lemma store_get_present (bucket key : string) (s : S3Store) (o : S3Object) :
  objects s !! (bucket, key) = Some o ->
  get_object (cas_get bucket key) s
  = (Fulfilled {| Body := Some (object_body o); ETag := Some (object_etag o) |}, s).
Proof. intros Hlook. simpl. unfold store_get. simpl. rewrite Hlook. reflexivity. Qed.

Lemma store_get_same (req : GetObjectInput) (s s1 : S3Store)
    (resp : Settled GetObjectCommandOutput) :
  get_object req s = (resp, s1) -> s1 = s.
Proof.
  intros Hget. pose proof (store_get_unchanged req s) as Hsame.
  simpl in Hget. rewrite Hget in Hsame. exact Hsame.
Qed.

(** X10. A compare-and-swap call never creates the lock object.  On a key
    that holds none, with an attempt to spend, it reads once, is told
    there is no such key, and throws that error, not
    [LockNotAcquiredError]: it does not write, wait or try again, and the
    store is as it was. *)
Theorem cas_on_missing_key `{JsonRuntime} (props : AcquireLock) (s : S3Store) :
  isCompareAndSwapLock props = true ->
  attempts_of props > 0 ->
  objects s !! (bucket props, key props) = None ->
  run (S3Lock.acquireLock props) s
  = (Rejected NoSuchKey, s,
     [cas_log (bucket props) (key props);
      EvGet (cas_get (bucket props) (key props)) (Rejected NoSuchKey)]).
Proof.
  intros Hmode Hpos Habsent.
  rewrite (acquireLock_cas props Hmode).
  rewrite run_cas_loop_iterate by exact Hpos.
  rewrite run_cas_attempt. simpl. unfold store_get. simpl. rewrite Habsent. reflexivity.
Qed.

Lemma cas_on_missing_key_witness :
  let props := sample_props Undefined None in
  (isCompareAndSwapLock props = true /\ attempts_of props > 0 /\
   objects empty_store !! (bucket props, key props) = None) /\
  fst (fst (run (@S3Lock.acquireLock sample_runtime props) empty_store))
  = Rejected NoSuchKey.
Proof.
  intros props. split; [split; [reflexivity|split; reflexivity]|].
  rewrite (@cas_on_missing_key sample_runtime props empty_store eq_refl eq_refl eq_refl).
  reflexivity.
Defined.

(** X11. An existence lock is taken once per key.  On the store, after
    any call that returned a handle for the key, and whatever has been
    sent since, a [release] included (it writes the new body, it does not
    remove the object), an existence lock on that key fails with
    [LockNotAcquiredError] and leaves the store as it finds it. *)
Theorem existence_lock_taken_once `{JsonRuntime} (first again : AcquireLock)
    (s s1 s2 : S3Store) (h : LockHandle) (tr tr1 : list Event)
    (B : Type) (later : Async B) (rb : Settled B) (body : string) :
  store_wf s ->
  run (S3Lock.acquireLock first) s = (Fulfilled h, s1, tr) ->
  run later s1 = (rb, s2, tr1) ->
  isCompareAndSwapLock again = false ->
  bucket again = bucket first ->
  key again = key first ->
  generator_of again = Return body ->
  run (S3Lock.acquireLock again) s2
  = (Rejected LockNotAcquiredError, s2,
     [existence_log (bucket first) (key first);
      EvPut (existence_put (bucket first) (key first) body)
        (Rejected PreconditionFailed)]).
Proof.
  intros Hwf Hrun Hlater Hmode Hb Hk Hgen.
  destruct (acquired_on_store first s s1 h tr Hwf Hrun)
    as (n0 & body0 & _ & Hlook & _ & _).
  assert (Hpresent : objects s2 !! (bucket first, key first) <> None).
  { eapply run_store_keeps_keys; [exact Hlater|]. rewrite Hlook. discriminate. }
  rewrite (acquireLock_existence again Hmode), Hgen, Hb, Hk, run_existence_lock.
  simpl. unfold store_put. simpl.
  destruct (objects s2 !! (bucket first, key first)); [reflexivity|contradiction].
Qed.

Lemma existence_lock_taken_once_witness :
  let props := sample_props Absent None in
  let acquired := run (@S3Lock.acquireLock sample_runtime props) empty_store in
  let h := S3Lock.locked "locks" "job" (Some "0") in
  let s1 := snd (fst acquired) in
  let released := run (release h (JSON_stringify_locked false)) s1 in
  let s2 := snd (fst released) in
  (store_wf empty_store /\
   acquired = (Fulfilled h, s1, snd acquired) /\
   fst (fst released) = Fulfilled tt /\
   isCompareAndSwapLock props = false /\
   generator_of props = Return (JSON_stringify_locked true)) /\
  fst (fst (run (@S3Lock.acquireLock sample_runtime props) s2))
  = Rejected LockNotAcquiredError.
Proof.
  intros props acquired h s1 released s2.
  assert (Hacq : acquired = (Fulfilled h, s1, snd acquired)) by reflexivity.
  split; [split; [exact empty_store_wf|split; [exact Hacq|repeat split]]|].
  rewrite (@existence_lock_taken_once sample_runtime props props empty_store s1 s2 h
             (snd acquired) (snd released) unit
             (release h (JSON_stringify_locked false)) (fst (fst released))
             (JSON_stringify_locked true)
             empty_store_wf Hacq (triple_eta released) eq_refl eq_refl eq_refl eq_refl).
  reflexivity.
Defined.

(** On the store and with callbacks that leave it alone, the loop changes
    nothing until its write goes through. *)
Lemma cas_loop_on_store (bucket key body : string)
    (cond : GetObjectCommandOutput -> Async bool) (timeout : Z) (n : nat) :
  store_free cond ->
  forall (attempt : Z) (s s' : S3Store) (r : Settled LockHandle) (tr : list Event),
    Z.to_nat attempt = n ->
    run (S3Lock.cas_loop bucket key (Return body) cond timeout attempt) s = (r, s', tr) ->
    match r with
    | Rejected _ => s' = s
    | Fulfilled h =>
        h = S3Lock.locked bucket key (Some (fresh_etag s)) /\
        exists etag, s' = snd (store_write (cas_put bucket key etag body) s)
    end.
Proof.
  intros Hfree. induction n as [|n IH]; intros attempt s s' r tr Hn Hrun.
  - rewrite run_cas_loop_exhausted in Hrun by lia. injection Hrun as <- <- <-.
    reflexivity.
  - rewrite run_cas_loop_iterate in Hrun by lia.
    destruct (run (S3Lock.cas_attempt bucket key (Return body) cond timeout) s)
      as [[ra s1] tr1] eqn:Hattempt.
    destruct (cas_attempt_cases _ _ _ _ _ _ _ _ _ Hfree Hattempt)
      as [(e & Hget & -> & ->)|[(o & e & Hget & _ & -> & ->)|[(o & Hget & _ & -> & ->)
         |[(o & s0 & out & Hget & _ & Hput & -> & ->)
         |[(o & s0 & e & Hget & _ & Hput & _ & -> & ->)
          |(o & s0 & e & Hget & _ & Hput & _ & -> & ->)]]]]];
      apply store_get_same in Hget; subst.
    + injection Hrun as <- <- <-. reflexivity.
    + injection Hrun as <- <- <-. reflexivity.
    + destruct (run (S3Lock.cas_loop _ _ _ _ _ _) s) as [[r2 s2] tr2] eqn:Hrest.
      injection Hrun as <- <- <-.
      exact (IH (attempt - 1) s s2 r2 tr2 ltac:(lia) Hrest).
    + injection Hrun as <- <- <-.
      simpl in Hput. apply store_put_accepted in Hput as [-> ->].
      split; [reflexivity|]. eauto.
    + simpl in Hput. destruct (store_put_cases (cas_put bucket key (ETag o) body) s)
        as [Hw|[e' Hw]]; rewrite Hw in Hput; [discriminate Hput|].
      injection Hput as _ <-.
      destruct (run (S3Lock.cas_loop _ _ _ _ _ _) s) as [[r2 s2] tr2] eqn:Hrest.
      injection Hrun as <- <- <-.
      exact (IH (attempt - 1) s s2 r2 tr2 ltac:(lia) Hrest).
    + simpl in Hput. destruct (store_put_cases (cas_put bucket key (ETag o) body) s)
        as [Hw|[e' Hw]]; rewrite Hw in Hput; [discriminate Hput|].
      injection Hput as _ <-. injection Hrun as <- <- <-. reflexivity.
Qed.

(** X12. On the store, a call whose callbacks leave the store alone
    changes it only by the write that acquires.  If the call throws, for
    whatever reason and after however many attempts, the store is exactly
    as it was.  If it returns a handle, the key holds the generated body
    under a fresh tag, the handle carries that tag, and every other key is
    as it was. *)
Theorem acquire_changes_the_store_by_one_write `{JsonRuntime} (props : AcquireLock)
    (body : string) (s s' : S3Store) (r : Settled LockHandle) (tr : list Event) :
  generator_of props = Return body ->
  store_free (predicate_of props) ->
  run (S3Lock.acquireLock props) s = (r, s', tr) ->
  match r with
  | Rejected _ => s' = s
  | Fulfilled h =>
      h = S3Lock.locked (bucket props) (key props) (Some (fresh_etag s)) /\
      objects s' = <[(bucket props, key props) :=
                       {| object_body := body; object_etag := fresh_etag s |}]>
                     (objects s) /\
      accepted s' = S (accepted s)
  end.
Proof.
  intros Hgen Hfree Hrun.
  destruct (isCompareAndSwapLock props) eqn:Hmode.
  - rewrite (acquireLock_cas props Hmode), Hgen in Hrun.
    pose proof (cas_loop_on_store _ _ _ _ _ _ Hfree _ _ _ _ _ eq_refl Hrun) as Hstore.
    destruct r as [h|e]; [|exact Hstore].
    destruct Hstore as (-> & etag & ->). auto.
  - rewrite (acquireLock_existence props Hmode), Hgen, run_existence_lock in Hrun.
    simpl in Hrun.
    destruct (store_put_cases (existence_put (bucket props) (key props) body) s)
      as [Hw|[e Hw]]; rewrite Hw in Hrun.
    + unfold store_write in Hrun. injection Hrun as <- <- <-. auto.
    + injection Hrun as <- <- <-. reflexivity.
Qed.

Lemma acquire_changes_the_store_witness :
  let props := sample_props Undefined (Some 2) in
  let res := run (@S3Lock.acquireLock sample_runtime props) locked_store in
  (generator_of props = Return (JSON_stringify_locked true) /\
   store_free (@predicate_of sample_runtime props)) /\
  fst (fst res) = Rejected LockNotAcquiredError /\
  snd (fst res) = locked_store.
Proof.
  intros props res.
  assert (Hfree : store_free (@predicate_of sample_runtime props))
    by exact (@defaultConditional_store_free sample_runtime).
  assert (Hr : fst (fst res) = Rejected LockNotAcquiredError) by reflexivity.
  split; [split; [reflexivity|exact Hfree]|]. split; [exact Hr|].
  pose proof (@acquire_changes_the_store_by_one_write sample_runtime props
                (JSON_stringify_locked true) locked_store (snd (fst res))
                (fst (fst res)) (snd res) eq_refl Hfree (triple_eta res)) as Hsame.
  rewrite Hr in Hsame. exact Hsame.
Defined.

(** ** The lock from initialization to release *)

Lemma cas_acquires_on_store (bucket key body : string)
    (cond : GetObjectCommandOutput -> Async bool) (timeout attempt : Z)
    (s : S3Store) (o : S3Object) :
  attempt > 0 ->
  objects s !! (bucket, key) = Some o ->
  cond {| Body := Some (object_body o); ETag := Some (object_etag o) |} = Return true ->
  run (S3Lock.cas_loop bucket key (Return body) cond timeout attempt) s
  = (Fulfilled (S3Lock.locked bucket key (Some (fresh_etag s))),
     snd (store_write (cas_put bucket key (Some (object_etag o)) body) s),
     [cas_log bucket key;
      EvGet (cas_get bucket key)
        (Fulfilled {| Body := Some (object_body o); ETag := Some (object_etag o) |});
      EvPut (cas_put bucket key (Some (object_etag o)) body)
        (Fulfilled {| put_ETag := Some (fresh_etag s) |});
      EvLog "Compare and swap Lock acquired"]).
Proof.
  intros Hpos Hlook Hcond.
  rewrite run_cas_loop_iterate by exact Hpos.
  rewrite run_cas_attempt, (store_get_present _ _ _ _ Hlook), Hcond. simpl.
  unfold store_put. simpl. rewrite Hlook, String.eqb_refl. reflexivity.
Qed.

Lemma cas_refused_on_store (bucket key body : string)
    (cond : GetObjectCommandOutput -> Async bool) (timeout : Z)
    (s : S3Store) (o : S3Object) (n : nat) :
  objects s !! (bucket, key) = Some o ->
  cond {| Body := Some (object_body o); ETag := Some (object_etag o) |} = Return false ->
  forall attempt : Z,
    Z.to_nat attempt = n ->
    exists tr,
      run (S3Lock.cas_loop bucket key (Return body) cond timeout attempt) s
      = (Rejected LockNotAcquiredError, s, tr) /\
      length (reads tr) = n /\ writes tr = [].
Proof.
  intros Hlook Hcond. induction n as [|n IH]; intros attempt Hn.
  - exists []. rewrite run_cas_loop_exhausted by lia. auto.
  - destruct (IH (attempt - 1) ltac:(lia)) as (tr & Hrest & Hreads & Hwrites).
    eexists. rewrite run_cas_loop_iterate by lia.
    rewrite (run_cas_attempt_refused _ _ _ _ _ _ _ _
               (store_get_present _ _ _ _ Hlook) Hcond).
    rewrite Hrest. split; [reflexivity|].
    unfold reads, writes in *. simpl. rewrite Hreads. auto.
Qed.

(** X13. The lock through its life, on the store, with the default
    predicate and generator and a runtime that parses the two markers as
    written.  After [initializeLockFile], a compare-and-swap call acquires
    at its first attempt.  Until the handle is released a second call
    finds the lock taken at every attempt: it reads [maxAttempts] times,
    throws [LockNotAcquiredError] and leaves the store alone.  The handle
    then releases with the unlocked marker, and after that a call acquires
    again. *)
Theorem lock_cycle_on_store `{JsonRuntime} (props : AcquireLock) (s0 : S3Store) :
  (forall v : bool,
     JSON_parse (JSON_stringify_locked v) = Fulfilled (JObject [("locked", JBool v)])) ->
  isCompareAndSwapLock props = true ->
  predicate_of props = defaultConditional ->
  generator_of props = defaultGenerateBody ->
  attempts_of props > 0 ->
  let s1 := snd (fst (run (S3Lock.initializeLockFile
                             {| init_bucket := bucket props; init_key := key props |}) s0)) in
  let first := run (S3Lock.acquireLock props) s1 in
  let s2 := snd (fst first) in
  let h := S3Lock.locked (bucket props) (key props) (Some (fresh_etag s1)) in
  let second := run (S3Lock.acquireLock props) s2 in
  let released := run (release h (JSON_stringify_locked false)) s2 in
  let third := run (S3Lock.acquireLock props) (snd (fst released)) in
  fst (fst first) = Fulfilled h /\
  length (reads (snd first)) = 1%nat /\
  fst (fst second) = Rejected LockNotAcquiredError /\
  snd (fst second) = s2 /\
  length (reads (snd second)) = Z.to_nat (attempts_of props) /\
  fst (fst released) = Fulfilled tt /\
  exists h', fst (fst third) = Fulfilled h'.
Proof.
  intros Hparse Hmode Hpred Hgen Hpos s1 first s2 h second released third.
  set (b := bucket props) in *. set (k := key props) in *.
  assert (Hyes : forall etag,
            defaultConditional {| Body := Some (JSON_stringify_locked false); ETag := etag |}
            = Return true).
  { intros etag. unfold defaultConditional. simpl. rewrite Hparse. reflexivity. }
  assert (Hno : forall etag,
            defaultConditional {| Body := Some (JSON_stringify_locked true); ETag := etag |}
            = Return false).
  { intros etag. unfold defaultConditional. simpl. rewrite Hparse. reflexivity. }
  assert (Hs1 : objects s1 !! (b, k)
                = Some {| object_body := JSON_stringify_locked false;
                          object_etag := fresh_etag s0 |}).
  { subst s1. simpl. apply lookup_insert_eq. }
  assert (Hfirst : first
    = (Fulfilled h,
       snd (store_write (cas_put b k (Some (fresh_etag s0)) (JSON_stringify_locked true)) s1),
       [cas_log b k;
        EvGet (cas_get b k)
          (Fulfilled {| Body := Some (JSON_stringify_locked false);
                        ETag := Some (fresh_etag s0) |});
        EvPut (cas_put b k (Some (fresh_etag s0)) (JSON_stringify_locked true))
          (Fulfilled {| put_ETag := Some (fresh_etag s1) |});
        EvLog "Compare and swap Lock acquired"])).
  { subst first. rewrite (acquireLock_cas props Hmode), Hpred, Hgen.
    exact (cas_acquires_on_store b k _ _ _ _ s1 _ Hpos Hs1 (Hyes _)). }
  assert (Hs2 : objects s2 !! (b, k)
                = Some {| object_body := JSON_stringify_locked true;
                          object_etag := fresh_etag s1 |}).
  { subst s2. rewrite Hfirst. simpl. apply lookup_insert_eq. }
  destruct (cas_refused_on_store b k (JSON_stringify_locked true) defaultConditional
              (timeout_of props) s2 _ (Z.to_nat (attempts_of props)) Hs2 (Hno _)
              (attempts_of props) eq_refl) as (tr2 & Hsecond & Hreads2 & _).
  assert (Hsecond' : second = (Rejected LockNotAcquiredError, s2, tr2)).
  { subst second. rewrite (acquireLock_cas props Hmode), Hpred, Hgen. exact Hsecond. }
  assert (Hreleased : released
    = (Fulfilled tt,
       snd (store_write (release_put b k (Some (fresh_etag s1))
                           (JSON_stringify_locked false)) s2),
       [EvPut (release_put b k (Some (fresh_etag s1)) (JSON_stringify_locked false))
          (Fulfilled {| put_ETag := Some (fresh_etag s2) |})])).
  { subst released h. rewrite (release_on_store _ _ _ _ _ _ Hs2). simpl.
    rewrite String.eqb_refl. reflexivity. }
  rewrite Hfirst, Hsecond', Hreleased. cbn [fst snd].
  repeat split; [exact Hreads2|].
  subst third. rewrite Hreleased. cbn [fst snd].
  rewrite (acquireLock_cas props Hmode), Hpred, Hgen. unfold defaultGenerateBody.
  erewrite cas_acquires_on_store; [eauto|exact Hpos| |].
  - simpl. apply lookup_insert_eq.
  - exact (Hyes _).
Qed.

Lemma lock_cycle_witness :
  let props := sample_props Undefined (Some 2) in
  let s1 := snd (fst (run (S3Lock.initializeLockFile
                             {| init_bucket := "locks"; init_key := "job" |})
                        empty_store)) in
  let first := run (@S3Lock.acquireLock sample_runtime props) s1 in
  let s2 := snd (fst first) in
  let h := S3Lock.locked "locks" "job" (Some "1") in
  let second := run (@S3Lock.acquireLock sample_runtime props) s2 in
  let released := run (release h (JSON_stringify_locked false)) s2 in
  let third := run (@S3Lock.acquireLock sample_runtime props) (snd (fst released)) in
  ((forall v : bool,
      sample_parse (JSON_stringify_locked v) = Fulfilled (JObject [("locked", JBool v)])) /\
   isCompareAndSwapLock props = true /\ attempts_of props > 0) /\
  fst (fst first) = Fulfilled h /\
  length (reads (snd first)) = 1%nat /\
  fst (fst second) = Rejected LockNotAcquiredError /\
  snd (fst second) = s2 /\
  length (reads (snd second)) = 2%nat /\
  fst (fst released) = Fulfilled tt /\
  exists h', fst (fst third) = Fulfilled h'.
Proof.
  intros props s1 first s2 h second released third.
  assert (Hparse : forall v : bool,
            sample_parse (JSON_stringify_locked v)
            = Fulfilled (JObject [("locked", JBool v)])) by (intros [|]; reflexivity).
  split; [split; [exact Hparse|split; reflexivity]|].
  exact (@lock_cycle_on_store sample_runtime props empty_store Hparse
           eq_refl eq_refl eq_refl eq_refl).
Defined.

(** ** Two compare-and-swap calls on one key *)

Lemma cas_loop_top (bucket key : string) (c : CasCaller) (n : Z) :
  n > 0 ->
  S3Lock.cas_loop bucket key (Return (cc_body c)) (cc_cond c) (cc_timeout c) n
  = ConsoleLog ("Compare and swap lock: Writing to " +:+ bucket +:+ " " +:+ key)
      (cas_pass bucket key c n (cas_after_log bucket key c)).
Proof. intros Hpos. rewrite cas_loop_iterate by exact Hpos. reflexivity. Qed.

Lemma cas_after_log_unfolded (bucket key : string) (c : CasCaller) :
  cas_after_log bucket key c = SendGet (cas_get bucket key) (cas_after_read bucket key c).
Proof. reflexivity. Qed.

Lemma cas_after_read_yes (bucket key : string) (c : CasCaller)
    (o : GetObjectCommandOutput) :
  cc_cond c o = Return true ->
  cas_after_read bucket key c (Fulfilled o) = cas_write_stage bucket key c (ETag o).
Proof.
  intros Hc. unfold cas_write_stage, cas_after_read. simpl. rewrite Hc. reflexivity.
Qed.

Lemma cas_after_read_no (bucket key : string) (c : CasCaller)
    (o : GetObjectCommandOutput) :
  cc_cond c o = Return false ->
  cas_after_read bucket key c (Fulfilled o) = SetTimeout (cc_timeout c) (Return None).
Proof. intros Hc. unfold cas_after_read. simpl. rewrite Hc. reflexivity. Qed.

Lemma cas_after_read_threw (bucket key : string) (c : CasCaller)
    (o : GetObjectCommandOutput) (e : JsError) :
  cc_cond c o = Throw e ->
  cas_after_read bucket key c (Fulfilled o) = Throw e.
Proof. intros Hc. unfold cas_after_read. simpl. rewrite Hc. reflexivity. Qed.

Lemma cas_write_stage_unfolded (bucket key : string) (c : CasCaller)
    (etag : option string) :
  cas_write_stage bucket key c etag
  = SendPut (cas_put bucket key etag (cc_body c)) (cas_after_write bucket key c etag).
Proof. reflexivity. Qed.

Lemma cas_after_write_accepted (bucket key : string) (c : CasCaller)
    (etag : option string) (out : PutObjectCommandOutput) :
  cas_after_write bucket key c etag (Fulfilled out)
  = ConsoleLog "Compare and swap Lock acquired"
      (Return (Some (S3Lock.locked bucket key (put_ETag out)))).
Proof. reflexivity. Qed.

Lemma cas_after_write_rejected (bucket key : string) (c : CasCaller)
    (etag : option string) (e : JsError) :
  cas_after_write bucket key c etag (Rejected e)
  = if is_PreconditionFailed e then SetTimeout (cc_timeout c) (Return None) else Throw e.
Proof.
  unfold cas_after_write, cas_write_stage, cas_after_read. simpl.
  destruct (is_PreconditionFailed e); reflexivity.
Qed.

Lemma cas_won_step (bucket key : string) (p : Async LockHandle) (s : S3Store) :
  CasWon bucket key p -> CasWon bucket key (fst (step p s)) /\ snd (step p s) = s.
Proof. intros [etag|etag]; simpl; split; (constructor || reflexivity). Qed.

(** On a lock no one has taken, a caller whose predicate says yes to the
    object moves on without touching the store, until its write takes the
    lock. *)
Lemma cas_racing_step (bucket key : string) (c : CasCaller) (tag0 : string)
    (p : Async LockHandle) (s : S3Store) (o : S3Object) :
  objects s !! (bucket, key) = Some o ->
  object_etag o = tag0 ->
  cc_cond c {| Body := Some (object_body o); ETag := Some tag0 |} = Return true ->
  CasRacing bucket key c tag0 p ->
  (CasRacing bucket key c tag0 (fst (step p s)) /\ snd (step p s) = s) \/
  (CasWon bucket key (fst (step p s)) /\
   snd (step p s) = snd (store_write (cas_put bucket key (Some tag0) (cc_body c)) s)).
Proof.
  intros Hlook Htag Hyes [n Hpos|n|n].
  - left. rewrite (cas_loop_top _ _ _ _ Hpos). simpl. split; [constructor|reflexivity].
  - left. unfold cas_pass. rewrite cas_after_log_unfolded. simpl.
    unfold store_get. simpl. rewrite Hlook, Htag. simpl.
    rewrite (cas_after_read_yes _ _ _ _ Hyes). split; [constructor|reflexivity].
  - right. unfold cas_pass. rewrite cas_write_stage_unfolded. simpl.
    unfold store_put. simpl. rewrite Hlook, Htag, String.eqb_refl. simpl.
    split; [constructor|reflexivity].
Qed.

(** On a lock the other caller has taken, a caller whose predicate says no
    to the winner's body gets nowhere and changes nothing. *)
Lemma cas_losing_step (bucket key : string) (c : CasCaller) (tag0 : string)
    (p : Async LockHandle) (s : S3Store) (o : S3Object) :
  objects s !! (bucket, key) = Some o ->
  object_etag o <> tag0 ->
  cc_cond c {| Body := Some (object_body o); ETag := Some (object_etag o) |}
  = Return false ->
  CasLosing bucket key c tag0 p ->
  CasLosing bucket key c tag0 (fst (step p s)) /\ snd (step p s) = s.
Proof.
  intros Hlook Hstale Hno [n|n|n|n].
  - destruct (Z_gt_dec n 0) as [Hpos|Hdone].
    + rewrite (cas_loop_top _ _ _ _ Hpos). simpl. split; [constructor|reflexivity].
    + rewrite (cas_loop_exhausted bucket key _ _ _ n) by lia. simpl.
      split; [|reflexivity].
      rewrite <- (cas_loop_exhausted bucket key (Return (cc_body c)) (cc_cond c)
                    (cc_timeout c) n) by lia.
      constructor.
  - unfold cas_pass. rewrite cas_after_log_unfolded. simpl.
    unfold store_get. simpl. rewrite Hlook. simpl.
    rewrite (cas_after_read_no _ _ _ _ Hno). split; [apply cas_losing_wait|reflexivity].
  - unfold cas_pass. rewrite cas_write_stage_unfolded. simpl.
    unfold store_put. simpl. rewrite Hlook.
    destruct (String.eqb_spec (object_etag o) tag0) as [Heq|_]; [contradiction|].
    simpl. split; [apply cas_losing_wait|reflexivity].
  - simpl. split; [apply cas_losing_top|reflexivity].
Qed.

Lemma cas_racing_unsettled (bucket key : string) (c : CasCaller) (tag0 : string)
    (p : Async LockHandle) :
  CasRacing bucket key c tag0 p -> outcome p = None.
Proof.
  intros [n Hpos|n|n].
  - rewrite (cas_loop_top _ _ _ _ Hpos). reflexivity.
  - reflexivity.
  - reflexivity.
Qed.

Lemma cas_losing_outcome (bucket key : string) (c : CasCaller) (tag0 : string)
    (p : Async LockHandle) (r : Settled LockHandle) :
  CasLosing bucket key c tag0 p -> outcome p = Some r ->
  r = Rejected LockNotAcquiredError.
Proof.
  intros [n|n|n|n]; try discriminate.
  destruct (Z_gt_dec n 0) as [Hpos|Hdone].
  - rewrite (cas_loop_top _ _ _ _ Hpos). discriminate.
  - rewrite (cas_loop_exhausted bucket key _ _ _ n) by lia. intros [= <-]. reflexivity.
Qed.

Lemma cas_won_outcome (bucket key : string) (p : Async LockHandle)
    (r : Settled LockHandle) :
  CasWon bucket key p -> outcome p = Some r -> exists h, r = Fulfilled h.
Proof. intros [etag|etag]; simpl; [discriminate|]. intros [= <-]. eauto. Qed.

Section CasRace.
Context (bucket key : string) (cA cB : CasCaller) (s0 : S3Store) (o : S3Object).
Hypothesis s0_wf : store_wf s0.
Hypothesis s0_object : objects s0 !! (bucket, key) = Some o.
Hypothesis yes_A :
  cc_cond cA {| Body := Some (object_body o); ETag := Some (object_etag o) |} = Return true.
Hypothesis yes_B :
  cc_cond cB {| Body := Some (object_body o); ETag := Some (object_etag o) |} = Return true.
Hypothesis no_A :
  forall etag, cc_cond cA {| Body := Some (cc_body cB); ETag := etag |} = Return false.
Hypothesis no_B :
  forall etag, cc_cond cB {| Body := Some (cc_body cA); ETag := etag |} = Return false.

Lemma taken_tag_is_new : fresh_etag s0 <> object_etag o.
Proof.
  destruct (s0_wf _ _ s0_object) as (n & Htag & Hlt).
  rewrite Htag. unfold fresh_etag. intros Heq. apply (inj pretty) in Heq. lia.
Qed.

Lemma taken_store_object (body : string) :
  objects (snd (store_write (cas_put bucket key (Some (object_etag o)) body) s0))
    !! (bucket, key)
  = Some {| object_body := body; object_etag := fresh_etag s0 |}.
Proof. simpl. apply lookup_insert_eq. Qed.

Lemma cas_race_invariant_first (p q : Async LockHandle) (s : S3Store) :
  cas_race_invariant bucket key cA cB (object_etag o) s0 p q s ->
  cas_race_invariant bucket key cA cB (object_etag o) s0 (fst (step p s)) q (snd (step p s)).
Proof.
  intros [(-> & Hp & Hq)|[(-> & Hp & Hq)|(-> & Hp & Hq)]].
  - destruct (cas_racing_step _ _ _ _ _ s0 o s0_object eq_refl yes_A Hp)
      as [[Hp1 ->]|[Hp1 ->]].
    + left. auto.
    + right. left. split; [reflexivity|]. split; [exact Hp1|].
      destruct Hq; constructor.
  - destruct (cas_won_step _ _ _ (snd (store_write (cas_put bucket key
                (Some (object_etag o)) (cc_body cA)) s0)) Hp) as [Hp1 ->].
    right. left. auto.
  - right. right.
    destruct (cas_losing_step _ _ _ _ _ _ _ (taken_store_object (cc_body cB))
                taken_tag_is_new (no_A _) Hp) as [Hp1 ->].
    auto.
Qed.

Lemma cas_race_invariant_second (p q : Async LockHandle) (s : S3Store) :
  cas_race_invariant bucket key cA cB (object_etag o) s0 p q s ->
  cas_race_invariant bucket key cA cB (object_etag o) s0 p (fst (step q s)) (snd (step q s)).
Proof.
  intros [(-> & Hp & Hq)|[(-> & Hp & Hq)|(-> & Hp & Hq)]].
  - destruct (cas_racing_step _ _ _ _ _ s0 o s0_object eq_refl yes_B Hq)
      as [[Hq1 ->]|[Hq1 ->]].
    + left. auto.
    + right. right. split; [reflexivity|]. split; [|exact Hq1].
      destruct Hp; constructor.
  - right. left.
    destruct (cas_losing_step _ _ _ _ _ _ _ (taken_store_object (cc_body cA))
                taken_tag_is_new (no_B _) Hq) as [Hq1 ->].
    auto.
  - destruct (cas_won_step _ _ _ (snd (store_write (cas_put bucket key
                (Some (object_etag o)) (cc_body cB)) s0)) Hq) as [Hq1 ->].
    right. right. auto.
Qed.

Lemma cas_race_invariant_schedule (schedule : list Caller) :
  forall (p q : Async LockHandle) (s : S3Store),
    cas_race_invariant bucket key cA cB (object_etag o) s0 p q s ->
    cas_race_invariant bucket key cA cB (object_etag o) s0
      (fst (fst (run_schedule schedule p q s)))
      (snd (fst (run_schedule schedule p q s)))
      (snd (run_schedule schedule p q s)).
Proof.
  induction schedule as [|c rest IH]; intros p q s Hinv; [exact Hinv|].
  destruct c; simpl.
  - pose proof (cas_race_invariant_first _ _ _ Hinv) as Hnext.
    destruct (step p s) as [p1 s1]. apply IH. exact Hnext.
  - pose proof (cas_race_invariant_second _ _ _ Hinv) as Hnext.
    destruct (step q s) as [q1 s1]. apply IH. exact Hnext.
Qed.

End CasRace.

Lemma settles_within_mono {A : Type} (p : Async A) :
  forall n m : nat, (n <= m)%nat -> settles_within n p -> settles_within m p.
Proof.
  induction p as [a|e|req k IH|req k IH|ms k IH|msg k IH]; intros n m Hle; simpl; auto.
  - destruct n as [|n]; [intros []|]. destruct m as [|m]; [lia|].
    intros Hk r. apply (IH r n m); [lia|apply Hk].
  - destruct n as [|n]; [intros []|]. destruct m as [|m]; [lia|].
    intros Hk r. apply (IH r n m); [lia|apply Hk].
  - destruct n as [|n]; [intros []|]. destruct m as [|m]; [lia|].
    apply IH. lia.
  - destruct n as [|n]; [intros []|]. destruct m as [|m]; [lia|].
    apply IH. lia.
Qed.

(** A pass is at most four steps: the log line, the read, the write, and
    the wait or the second log line. *)
Lemma cas_loop_settles (bucket key : string) (c : CasCaller) (n : nat) :
  store_free (cc_cond c) ->
  forall attempt : Z,
    Z.to_nat attempt = n ->
    settles_within (4 * n)
      (S3Lock.cas_loop bucket key (Return (cc_body c)) (cc_cond c) (cc_timeout c) attempt).
Proof.
  intros Hfree. induction n as [|n IH]; intros attempt Hn.
  - rewrite cas_loop_exhausted by lia. exact I.
  - replace (4 * S n)%nat with (S (S (S (S (4 * n))))) by lia.
    rewrite cas_loop_top by lia. cbn [settles_within].
    unfold cas_pass. rewrite cas_after_log_unfolded. cbn [Async_bind settles_within].
    specialize (IH (attempt - 1) ltac:(lia)).
    intros [out|e]; [|exact I].
    destruct (Hfree out) as [[[|] Hc]|[e Hc]].
    + rewrite (cas_after_read_yes _ _ _ _ Hc), cas_write_stage_unfolded.
      cbn [Async_bind settles_within]. intros [put|e].
      * rewrite cas_after_write_accepted. exact I.
      * rewrite cas_after_write_rejected.
        destruct (is_PreconditionFailed e); [|exact I].
        cbn [Async_bind settles_within cas_continue]. exact IH.
    + rewrite (cas_after_read_no _ _ _ _ Hc).
      cbn [Async_bind settles_within cas_continue].
      apply (settles_within_mono _ (4 * n)); [lia|exact IH].
    + rewrite (cas_after_read_threw _ _ _ _ _ Hc). exact I.
Qed.

(** X14. Two compare-and-swap calls on one key, their steps interleaved in
    any order, on a store whose object both predicates say yes to, each
    predicate saying no to the body the other call writes.  At no point
    have both returned a handle; and once each has had its four steps per
    attempt, one has returned a handle and the other has thrown
    [LockNotAcquiredError]. *)
Theorem cas_locks_exclude `{JsonRuntime} (propsA propsB : AcquireLock)
    (bodyA bodyB : string) (s : S3Store) (o : S3Object) (schedule : list Caller) :
  isCompareAndSwapLock propsA = true ->
  isCompareAndSwapLock propsB = true ->
  bucket propsB = bucket propsA ->
  key propsB = key propsA ->
  generator_of propsA = Return bodyA ->
  generator_of propsB = Return bodyB ->
  attempts_of propsA > 0 ->
  attempts_of propsB > 0 ->
  store_free (predicate_of propsA) ->
  store_free (predicate_of propsB) ->
  store_wf s ->
  objects s !! (bucket propsA, key propsA) = Some o ->
  predicate_of propsA {| Body := Some (object_body o); ETag := Some (object_etag o) |}
  = Return true ->
  predicate_of propsB {| Body := Some (object_body o); ETag := Some (object_etag o) |}
  = Return true ->
  (forall etag, predicate_of propsA {| Body := Some bodyB; ETag := etag |} = Return false) ->
  (forall etag, predicate_of propsB {| Body := Some bodyA; ETag := etag |} = Return false) ->
  let after :=
    run_schedule schedule (S3Lock.acquireLock propsA) (S3Lock.acquireLock propsB) s in
  let p := fst (fst after) in
  let q := snd (fst after) in
  ~ (exists hA hB, outcome p = Some (Fulfilled hA) /\ outcome q = Some (Fulfilled hB)) /\
  ((4 * Z.to_nat (attempts_of propsA) <= turns First schedule)%nat ->
   (4 * Z.to_nat (attempts_of propsB) <= turns Second schedule)%nat ->
   (exists h, outcome p = Some (Fulfilled h) /\
              outcome q = Some (Rejected LockNotAcquiredError)) \/
   (exists h, outcome q = Some (Fulfilled h) /\
              outcome p = Some (Rejected LockNotAcquiredError))).
Proof.
  intros HmodeA HmodeB Hbucket Hkey HgenA HgenB HposA HposB HfreeA HfreeB Hwf Hlook
    HyesA HyesB HnoA HnoB after p q.
  subst p q after.
  rewrite (acquireLock_cas propsA HmodeA), (acquireLock_cas propsB HmodeB).
  rewrite HgenA, HgenB, Hbucket, Hkey.
  set (b := bucket propsA) in *. set (k := key propsA) in *.
  set (cA := caller_of propsA bodyA). set (cB := caller_of propsB bodyB).
  change (S3Lock.cas_loop b k (Return bodyA) (predicate_of propsA) (timeout_of propsA)
            (attempts_of propsA))
    with (S3Lock.cas_loop b k (Return (cc_body cA)) (cc_cond cA) (cc_timeout cA)
            (attempts_of propsA)).
  change (S3Lock.cas_loop b k (Return bodyB) (predicate_of propsB) (timeout_of propsB)
            (attempts_of propsB))
    with (S3Lock.cas_loop b k (Return (cc_body cB)) (cc_cond cB) (cc_timeout cB)
            (attempts_of propsB)).
  set (startA := S3Lock.cas_loop b k (Return (cc_body cA)) (cc_cond cA) (cc_timeout cA)
                   (attempts_of propsA)).
  set (startB := S3Lock.cas_loop b k (Return (cc_body cB)) (cc_cond cB) (cc_timeout cB)
                   (attempts_of propsB)).
  assert (Hinit : cas_race_invariant b k cA cB (object_etag o) s startA startB s).
  { left. split; [reflexivity|]. split; constructor; assumption. }
  pose proof (cas_race_invariant_schedule b k cA cB s o Hwf Hlook HyesA HyesB HnoA HnoB
                schedule _ _ _ Hinit) as Hinv.
  destruct (run_schedule_settles schedule _ _ startA startB s
              (cas_loop_settles b k cA _ HfreeA _ eq_refl)
              (cas_loop_settles b k cB _ HfreeB _ eq_refl))
    as [HsetA HsetB].
  destruct (run_schedule schedule startA startB s) as [[p q] s'].
  cbn [fst snd] in *.
  split.
  - intros (hA & hB & HoA & HoB).
    destruct Hinv as [(_ & Hp & _)|[(_ & _ & Hq)|(_ & Hp & _)]].
    + rewrite (cas_racing_unsettled _ _ _ _ _ Hp) in HoA. discriminate.
    + pose proof (cas_losing_outcome _ _ _ _ _ _ Hq HoB). discriminate.
    + pose proof (cas_losing_outcome _ _ _ _ _ _ Hp HoA). discriminate.
  - intros HturnsA HturnsB.
    replace (4 * Z.to_nat (attempts_of propsA) - turns First schedule)%nat
      with 0%nat in HsetA by lia.
    replace (4 * Z.to_nat (attempts_of propsB) - turns Second schedule)%nat
      with 0%nat in HsetB by lia.
    destruct (settles_within_0 p HsetA) as [rA HoA].
    destruct (settles_within_0 q HsetB) as [rB HoB].
    destruct Hinv as [(_ & Hp & _)|[(_ & Hp & Hq)|(_ & Hp & Hq)]].
    + rewrite (cas_racing_unsettled _ _ _ _ _ Hp) in HoA. discriminate.
    + left. destruct (cas_won_outcome _ _ _ _ Hp HoA) as [h ->].
      rewrite (cas_losing_outcome _ _ _ _ _ _ Hq HoB) in HoB. eauto.
    + right. destruct (cas_won_outcome _ _ _ _ Hq HoB) as [h ->].
      rewrite (cas_losing_outcome _ _ _ _ _ _ Hp HoA) in HoA. eauto.
Qed.

Lemma cas_locks_exclude_witness :
  let props := sample_props Undefined (Some 1) in
  let o := {| object_body := JSON_stringify_locked false; object_etag := "0" |} in
  let after :=
    run_schedule racing_schedule (@S3Lock.acquireLock sample_runtime props)
      (@S3Lock.acquireLock sample_runtime props) unlocked_store in
  (isCompareAndSwapLock props = true /\
   attempts_of props > 0 /\
   store_free (@predicate_of sample_runtime props) /\
   store_wf unlocked_store /\
   objects unlocked_store !! (bucket props, key props) = Some o /\
   @predicate_of sample_runtime props
     {| Body := Some (object_body o); ETag := Some (object_etag o) |} = Return true /\
   (forall etag,
      @predicate_of sample_runtime props
        {| Body := Some (JSON_stringify_locked true); ETag := etag |} = Return false) /\
   (4 * Z.to_nat (attempts_of props) <= turns First racing_schedule)%nat /\
   (4 * Z.to_nat (attempts_of props) <= turns Second racing_schedule)%nat) /\
  outcome (fst (fst after)) = Some (Fulfilled (S3Lock.locked "locks" "job" (Some "1"))) /\
  outcome (snd (fst after)) = Some (Rejected LockNotAcquiredError).
Proof.
  intros props o after.
  assert (Hfree : store_free (@predicate_of sample_runtime props))
    by exact (@defaultConditional_store_free sample_runtime).
  assert (Hwf : store_wf unlocked_store) by apply store_with_wf.
  assert (Hlook : objects unlocked_store !! (bucket props, key props) = Some o)
    by reflexivity.
  assert (Hno : forall etag,
            @predicate_of sample_runtime props
              {| Body := Some (JSON_stringify_locked true); ETag := etag |}
            = Return false) by (intros etag; reflexivity).
  assert (HturnsA : (4 * Z.to_nat (attempts_of props) <= turns First racing_schedule)%nat)
    by (vm_compute; lia).
  assert (HturnsB : (4 * Z.to_nat (attempts_of props) <= turns Second racing_schedule)%nat)
    by (vm_compute; lia).
  split; [repeat split; assumption|].
  destruct (proj2 (@cas_locks_exclude sample_runtime props props
                     (JSON_stringify_locked true) (JSON_stringify_locked true)
                     unlocked_store o racing_schedule
                     eq_refl eq_refl eq_refl eq_refl eq_refl eq_refl eq_refl eq_refl
                     Hfree Hfree Hwf Hlook eq_refl eq_refl Hno Hno) HturnsA HturnsB)
    as [(h & HoA & HoB)|(h & HoB & HoA)].
  - split; [|exact HoB]. reflexivity.
  - vm_compute in HoA. discriminate HoA.
Defined.

(** ** The example *)

Lemma run_seq {W : Type} `{S3Client W} {A B : Type} (p : Async A) (f : A -> Async B)
    (w w1 w2 : W) (a : A) (r : Settled B) (tr1 tr2 : list Event) :
  run p w = (Fulfilled a, w1, tr1) ->
  run (f a) w1 = (r, w2, tr2) ->
  run (p ≫= f) w = (r, w2, tr1 ++ tr2).
Proof.
  intros Hp Hf. unfold mbind, Async_mbind. rewrite run_bind, Hp, Hf. reflexivity.
Qed.

Lemma run_seq_rejected {W : Type} `{S3Client W} {A B : Type} (p : Async A)
    (f : A -> Async B) (w w1 : W) (e : JsError) (tr1 : list Event) :
  run p w = (Rejected e, w1, tr1) ->
  run (p ≫= f) w = (Rejected e, w1, tr1).
Proof. intros Hp. unfold mbind, Async_mbind. rewrite run_bind, Hp. reflexivity. Qed.

(** A call that fails, as the example expects, is logged and passed over;
    one that succeeds trips the example's own error. *)
Lemma expect_failure_passes `{JsonRuntime} {W : Type} `{S3Client W}
    (props : AcquireLock) (w w1 : W) (e : JsError) (tr : list Event) :
  run (S3Lock.acquireLock props) w = (Rejected e, w1, tr) ->
  message_is e "Should not reach this" = false ->
  run (Example.expect_failure props) w = (Fulfilled tt, w1, tr ++ [EvLog (error_line e)]).
Proof.
  intros Hrun Hmsg. unfold Example.expect_failure.
  rewrite run_try_catch, (run_seq_rejected _ _ _ _ _ _ Hrun).
  unfold mbind, Async_mbind. simpl. rewrite Hmsg. reflexivity.
Qed.

Lemma expect_failure_trips `{JsonRuntime} {W : Type} `{S3Client W}
    (props : AcquireLock) (w w1 : W) (h : LockHandle) (tr : list Event) :
  run (S3Lock.acquireLock props) w = (Fulfilled h, w1, tr) ->
  run (Example.expect_failure props) w
  = (Rejected Example.should_not_reach, w1,
     tr ++ [EvLog (error_line Example.should_not_reach)]).
Proof.
  intros Hrun. unfold Example.expect_failure.
  rewrite run_try_catch.
  rewrite (run_seq _ _ _ _ _ _ _ _ _ Hrun (eq_refl : run (Throw _) w1 = _)).
  simpl. rewrite app_nil_r. reflexivity.
Qed.

Lemma existence_lock_on_free_key (bucket key body : string) (s : S3Store) :
  objects s !! (bucket, key) = None ->
  run (S3Lock.existence_lock bucket key (Return body)) s
  = (Fulfilled (S3Lock.locked bucket key (Some (fresh_etag s))),
     snd (store_write (existence_put bucket key body) s),
     [existence_log bucket key;
      EvPut (existence_put bucket key body)
        (Fulfilled {| put_ETag := Some (fresh_etag s) |});
      EvLog "Existence Lock acquired"]).
Proof.
  intros Habsent. rewrite run_existence_lock. simpl.
  unfold store_put. simpl. rewrite Habsent. reflexivity.
Qed.

Lemma existence_lock_on_taken_key (bucket key body : string) (s : S3Store) (o : S3Object) :
  objects s !! (bucket, key) = Some o ->
  run (S3Lock.existence_lock bucket key (Return body)) s
  = (Rejected LockNotAcquiredError, s,
     [existence_log bucket key;
      EvPut (existence_put bucket key body) (Rejected PreconditionFailed)]).
Proof.
  intros Hlook. rewrite run_existence_lock. simpl.
  unfold store_put. simpl. rewrite Hlook. reflexivity.
Qed.

(** The loop on the store, with a predicate that may log. *)
Lemma cas_acquires_quietly (bucket key body : string)
    (cond : GetObjectCommandOutput -> Async bool) (timeout attempt : Z)
    (s : S3Store) (o : S3Object) (tc : list Event) :
  attempt > 0 ->
  objects s !! (bucket, key) = Some o ->
  run (cond {| Body := Some (object_body o); ETag := Some (object_etag o) |}) s
  = (Fulfilled true, s, tc) ->
  exists tr,
    run (S3Lock.cas_loop bucket key (Return body) cond timeout attempt) s
    = (Fulfilled (S3Lock.locked bucket key (Some (fresh_etag s))),
       snd (store_write (cas_put bucket key (Some (object_etag o)) body) s), tr).
Proof.
  intros Hpos Hlook Hcond. eexists.
  rewrite run_cas_loop_iterate by exact Hpos.
  rewrite run_cas_attempt, (store_get_present _ _ _ _ Hlook). cbv zeta.
  rewrite Hcond. simpl. unfold store_put. simpl.
  rewrite Hlook, String.eqb_refl. reflexivity.
Qed.

Lemma cas_refused_quietly (bucket key body : string)
    (cond : GetObjectCommandOutput -> Async bool) (timeout : Z)
    (s : S3Store) (o : S3Object) (tc : list Event) (n : nat) :
  objects s !! (bucket, key) = Some o ->
  run (cond {| Body := Some (object_body o); ETag := Some (object_etag o) |}) s
  = (Fulfilled false, s, tc) ->
  forall attempt : Z,
    Z.to_nat attempt = n ->
    exists tr,
      run (S3Lock.cas_loop bucket key (Return body) cond timeout attempt) s
      = (Rejected LockNotAcquiredError, s, tr).
Proof.
  intros Hlook Hcond. induction n as [|n IH]; intros attempt Hn.
  - exists []. rewrite run_cas_loop_exhausted by lia. reflexivity.
  - destruct (IH (attempt - 1) ltac:(lia)) as (tr & Hrest).
    eexists. rewrite run_cas_loop_iterate by lia.
    rewrite run_cas_attempt, (store_get_present _ _ _ _ Hlook). cbv zeta.
    rewrite Hcond. cbv beta iota. rewrite Hrest. reflexivity.
Qed.

(** The example's predicate on a body that parses to an object: it logs
    its verdict and returns it. *)
Lemma testConditional_on_object `{JsonRuntime} `{JsonPrinter} {W : Type} `{S3Client W}
    (text : string) (etag : option string) (fields : list (string * JsonValue)) (w : W) :
  JSON_parse text = Fulfilled (JObject fields) ->
  let verdict := negb (truthy (assoc_field "locked" fields))
                 && truthy (assoc_field "testConditional" fields) in
  run (Example.testConditional {| Body := Some text; ETag := etag |}) w
  = (Fulfilled verdict, w,
     [EvLog ("Conditional: " +:+ (if verdict then "true" else "false")
             +:+ " and " +:+ JSON_stringify (JObject fields))]).
Proof.
  intros Hparse verdict. unfold Example.testConditional. simpl. rewrite Hparse. reflexivity.
Qed.

Lemma release_accepted_on_store (bucket key tag body newBody : string) (s : S3Store) :
  objects s !! (bucket, key) = Some {| object_body := body; object_etag := tag |} ->
  run (release (S3Lock.locked bucket key (Some tag)) newBody) s
  = (Fulfilled tt, snd (store_write (release_put bucket key (Some tag) newBody) s),
     [EvPut (release_put bucket key (Some tag) newBody)
        (Fulfilled {| put_ETag := Some (fresh_etag s) |})]).
Proof.
  intros Hlook. rewrite (release_on_store _ _ _ _ _ _ Hlook). simpl.
  rewrite String.eqb_refl. reflexivity.
Qed.

Lemma written_object (req : PutObjectInput) (s : S3Store) :
  objects (snd (store_write req s)) !! (put_Bucket req, put_Key req)
  = Some {| object_body := put_Body req; object_etag := fresh_etag s |}.
Proof. simpl. apply lookup_insert_eq. Qed.

Lemma existenceLock_on_free_key `{JsonRuntime} (id : string) (s : S3Store) :
  objects s !! ("test-s3-locking-cas", id) = None ->
  exists s' tag tr,
    run (Example.existenceLock id) s = (Fulfilled tt, s', tr) /\
    objects s' !! ("test-s3-locking-cas", id)
    = Some {| object_body := JSON_stringify_locked false; object_etag := tag |}.
Proof.
  intros Habsent.
  pose proof (existence_lock_on_free_key "test-s3-locking-cas" id
                (JSON_stringify_locked true) s Habsent) as Hfirst.
  set (s1 := snd (store_write (existence_put "test-s3-locking-cas" id
                                 (JSON_stringify_locked true)) s)) in *.
  assert (Hs1 : objects s1 !! ("test-s3-locking-cas", id)
                = Some {| object_body := JSON_stringify_locked true;
                          object_etag := fresh_etag s |})
    by exact (written_object _ s).
  pose proof (existence_lock_on_taken_key "test-s3-locking-cas" id
                (JSON_stringify_locked true) s1 _ Hs1) as Hsecond.
  eexists _, _, _. split.
  - unfold Example.existenceLock.
    eapply run_seq; [reflexivity|].
    eapply run_seq; [exact Hfirst|].
    eapply run_seq;
      [exact (expect_failure_passes (Example.commonProps id) s1 s1 _ _ Hsecond eq_refl)|].
    exact (release_accepted_on_store _ _ _ _ _ s1 Hs1).
  - exact (written_object (release_put "test-s3-locking-cas" id _ _) s1).
Qed.

Lemma compareAndSwapLock_on_object `{JsonRuntime} `{JsonPrinter} (id : string)
    (s : S3Store) (o : S3Object) :
  (forall l t : bool,
     JSON_parse (JSON_stringify_flags l t)
     = Fulfilled (JObject [("locked", JBool l); ("testConditional", JBool t)])) ->
  objects s !! ("test-s3-locking-cas", id) = Some o ->
  exists s' tag tr,
    run (Example.compareAndSwapLock id) s = (Fulfilled tt, s', tr) /\
    objects s' !! ("test-s3-locking-cas", id)
    = Some {| object_body := JSON_stringify_flags false false; object_etag := tag |}.
Proof.
  intros Hparse Hlook.
  set (b := "test-s3-locking-cas") in *.
  assert (Hverdict : forall (l t : bool) (tag : string) (s' : S3Store),
            run (Example.testConditional
                   {| Body := Some (JSON_stringify_flags l t); ETag := Some tag |}) s'
            = (Fulfilled (negb l && t), s',
               [EvLog ("Conditional: " +:+ (if negb l && t then "true" else "false")
                       +:+ " and "
                       +:+ JSON_stringify
                             (JObject [("locked", JBool l);
                                       ("testConditional", JBool t)]))])).
  { intros l t tag s'.
    exact (testConditional_on_object _ _ _ s' (Hparse l t)). }
  (* the first call, with the predicate that always says yes *)
  destruct (cas_acquires_quietly b id (JSON_stringify_flags true true)
              (fun _ => Return true) 100 2 s o [] ltac:(lia) Hlook eq_refl)
    as (tr1 & Hfirst).
  set (s1 := snd (store_write (cas_put b id (Some (object_etag o))
                                 (JSON_stringify_flags true true)) s)) in *.
  assert (Hs1 : objects s1 !! (b, id)
                = Some {| object_body := JSON_stringify_flags true true;
                          object_etag := fresh_etag s |})
    by exact (written_object _ s).
  (* the call that finds the lock taken *)
  destruct (cas_refused_quietly b id (JSON_stringify_locked true)
              Example.testConditional 100 s1 _ _ 2 Hs1 (Hverdict true true _ s1)
              2 eq_refl) as (tr2 & Hsecond).
  (* the release that leaves the lock free and the flag set *)
  pose proof (release_accepted_on_store b id _ _ (JSON_stringify_flags false true)
                s1 Hs1) as Hrelease1.
  set (s2 := snd (store_write (release_put b id (Some (fresh_etag s))
                                 (JSON_stringify_flags false true)) s1)) in *.
  assert (Hs2 : objects s2 !! (b, id)
                = Some {| object_body := JSON_stringify_flags false true;
                          object_etag := fresh_etag s1 |})
    by exact (written_object (release_put b id _ _) s1).
  (* the call that takes it again *)
  destruct (cas_acquires_quietly b id (JSON_stringify_locked true)
              Example.testConditional 100 2 s2 _ _ ltac:(lia) Hs2
              (Hverdict false true _ s2))
    as (tr3 & Hthird).
  set (s3 := snd (store_write (cas_put b id (Some (fresh_etag s1))
                                 (JSON_stringify_locked true)) s2)) in *.
  assert (Hs3 : objects s3 !! (b, id)
                = Some {| object_body := JSON_stringify_locked true;
                          object_etag := fresh_etag s2 |})
    by exact (written_object _ s2).
  (* the release that clears the flag *)
  pose proof (release_accepted_on_store b id _ _ (JSON_stringify_flags false false)
                s3 Hs3) as Hrelease2.
  set (s4 := snd (store_write (release_put b id (Some (fresh_etag s2))
                                 (JSON_stringify_flags false false)) s3)) in *.
  assert (Hs4 : objects s4 !! (b, id)
                = Some {| object_body := JSON_stringify_flags false false;
                          object_etag := fresh_etag s3 |})
    by exact (written_object (release_put b id _ _) s3).
  (* the call that finds the flag cleared *)
  destruct (cas_refused_quietly b id (JSON_stringify_locked true)
              Example.testConditional 100 s4 _ _ 2 Hs4 (Hverdict false false _ s4)
              2 eq_refl) as (tr4 & Hfourth).
  eexists _, _, _. split; [|exact Hs4].
  unfold Example.compareAndSwapLock.
  eapply run_seq; [reflexivity|].
  eapply run_seq; [exact Hfirst|].
  eapply run_seq;
    [exact (expect_failure_passes (Example.compareAndSwapCommonProps id) s1 s1 _ _
              Hsecond eq_refl)|].
  eapply run_seq; [exact Hrelease1|].
  eapply run_seq; [exact Hthird|].
  eapply run_seq; [exact Hrelease2|].
  exact (expect_failure_passes (Example.compareAndSwapCommonProps id) s4 s4 _ _
           Hfourth eq_refl).
Qed.

(** X15. The example's handler on a key that holds no object, with a
    runtime that parses the markers the example writes: every call in it
    ends the way the example expects, so its own error is never thrown, it
    returns ["ok"], and it leaves the key holding the marker with both
    flags cleared. *)
Theorem example_handler_on_free_key `{JsonRuntime} `{JsonPrinter} (id : string)
    (s : S3Store) :
  (forall l t : bool,
     JSON_parse (JSON_stringify_flags l t)
     = Fulfilled (JObject [("locked", JBool l); ("testConditional", JBool t)])) ->
  objects s !! ("test-s3-locking-cas", id) = None ->
  exists s' tag tr,
    run (Example.handler id) s = (Fulfilled "ok", s', tr) /\
    objects s' !! ("test-s3-locking-cas", id)
    = Some {| object_body := JSON_stringify_flags false false; object_etag := tag |}.
Proof.
  intros Hparse Habsent.
  destruct (existenceLock_on_free_key id s Habsent) as (s1 & tag1 & tr1 & Hrun1 & Hs1).
  destruct (compareAndSwapLock_on_object id s1 _ Hparse Hs1)
    as (s2 & tag2 & tr2 & Hrun2 & Hs2).
  exists s2, tag2. eexists. split; [|exact Hs2].
  unfold Example.handler.
  eapply run_seq; [exact Hrun1|].
  eapply run_seq; [exact Hrun2|reflexivity].
Qed.

Lemma example_handler_on_free_key_witness :
  ((forall l t : bool,
      example_parse (JSON_stringify_flags l t)
      = Fulfilled (JObject [("locked", JBool l); ("testConditional", JBool t)])) /\
   objects empty_store !! ("test-s3-locking-cas", "17") = None) /\
  fst (fst (run (@Example.handler example_runtime example_printer "17") empty_store))
  = Fulfilled "ok".
Proof.
  assert (Hparse : forall l t : bool,
            example_parse (JSON_stringify_flags l t)
            = Fulfilled (JObject [("locked", JBool l); ("testConditional", JBool t)]))
    by (intros [|] [|]; reflexivity).
  split; [split; [exact Hparse|reflexivity]|].
  destruct (@example_handler_on_free_key example_runtime example_printer "17"
              empty_store Hparse eq_refl) as (s' & tag & tr & Hrun & _).
  rewrite Hrun. reflexivity.
Defined.

(** X16. The example's handler on a key that already holds an object: its
    first call, the existence lock, is turned down, nothing catches that,
    and the handler throws [LockNotAcquiredError] having sent the one
    write the store rejected and changed nothing. *)
Theorem example_handler_on_taken_key `{JsonRuntime} `{JsonPrinter} (id : string)
    (s : S3Store) (o : S3Object) :
  objects s !! ("test-s3-locking-cas", id) = Some o ->
  run (Example.handler id) s
  = (Rejected LockNotAcquiredError, s,
     [EvLog "Starting existence example";
      existence_log "test-s3-locking-cas" id;
      EvPut (existence_put "test-s3-locking-cas" id (JSON_stringify_locked true))
        (Rejected PreconditionFailed)]).
Proof.
  intros Hlook.
  pose proof (existence_lock_on_taken_key "test-s3-locking-cas" id
                (JSON_stringify_locked true) s o Hlook) as Hfirst.
  unfold Example.handler. apply run_seq_rejected.
  unfold Example.existenceLock.
  change [EvLog "Starting existence example";
          existence_log "test-s3-locking-cas" id;
          EvPut (existence_put "test-s3-locking-cas" id (JSON_stringify_locked true))
            (Rejected PreconditionFailed)]
    with ([EvLog "Starting existence example"]
          ++ [existence_log "test-s3-locking-cas" id;
              EvPut (existence_put "test-s3-locking-cas" id (JSON_stringify_locked true))
                (Rejected PreconditionFailed)]).
  eapply run_seq; [reflexivity|].
  apply run_seq_rejected. exact Hfirst.
Qed.

Lemma example_handler_on_taken_key_witness :
  let s := store_with "test-s3-locking-cas" "17" "" in
  objects s !! ("test-s3-locking-cas", "17")
  = Some {| object_body := ""; object_etag := "0" |} /\
  fst (fst (run (@Example.handler example_runtime example_printer "17") s))
  = Rejected LockNotAcquiredError.
Proof.
  intros s. split; [reflexivity|].
  rewrite (@example_handler_on_taken_key example_runtime example_printer "17" s _
             eq_refl).
  reflexivity.
Defined.

(** ** What the default predicate takes for locked *)

(** X17. On a body that parses, the default predicate says no exactly
    when the parsed value is an object with a [locked] member that is
    truthy.  Everything else counts as unlocked: [null], a number, a
    string, an array, an object without the member, and an object whose
    member is [false], [0], the empty string or [null]. *)
Theorem defaultConditional_refuses_truthy_locked `{JsonRuntime}
    (props : GetObjectCommandOutput) (v : JsonValue) :
  JSON_parse (default "{}" (Body props)) = Fulfilled v ->
  (defaultConditional props = Return false <->
   exists fields locked,
     v = JObject fields /\ assoc_field "locked" fields = Some locked /\
     truthy (Some locked) = true) /\
  (defaultConditional props = Return true \/ defaultConditional props = Return false).
Proof.
  intros Hparse. rewrite (defaultConditional_parsed props v Hparse). split.
  - split.
    + intros [= Hneg]. apply negb_false_iff in Hneg.
      destruct v as [|b|x|t|items|fields]; simpl in Hneg; try discriminate.
      destruct (assoc_field "locked" fields) as [locked|] eqn:Hfield; [|discriminate].
      exists fields, locked. auto.
    + intros (fields & locked & -> & Hfield & Htruthy). simpl.
      rewrite Hfield, Htruthy. reflexivity.
  - destruct (truthy (optional_member "locked" v)); auto.
Qed.

Lemma defaultConditional_refuses_witness :
  let props := {| Body := Some (JSON_stringify_locked true); ETag := Some "0" |} in
  sample_parse (default "{}" (Body props)) = Fulfilled (JObject [("locked", JBool true)]) /\
  @defaultConditional sample_runtime props = Return false.
Proof.
  intros props. split; [reflexivity|].
  apply (proj1 (@defaultConditional_refuses_truthy_locked sample_runtime props
                  (JObject [("locked", JBool true)]) eq_refl)).
  exists [("locked", JBool true)], (JBool true). repeat split.
Defined.

(** ** How long a call can take *)

(** X18. Whatever the store answers, a call whose callbacks leave the
    store alone is over after a bounded number of steps: three for an
    existence lock (its log line, its write, its second log line), four
    per attempt for a compare-and-swap call (log line, read, write, and
    the wait or the second log line). *)
Theorem acquire_settles_within `{JsonRuntime} (props : AcquireLock) (body : string) :
  generator_of props = Return body ->
  store_free (predicate_of props) ->
  settles_within
    (if isCompareAndSwapLock props then 4 * Z.to_nat (attempts_of props) else 3)
    (S3Lock.acquireLock props).
Proof.
  intros Hgen Hfree. destruct (isCompareAndSwapLock props) eqn:Hmode.
  - rewrite (acquireLock_cas props Hmode), Hgen.
    exact (cas_loop_settles (bucket props) (key props) (caller_of props body) _
             Hfree _ eq_refl).
  - rewrite (acquireLock_existence props Hmode), Hgen.
    apply existence_lock_settles.
Qed.

Lemma acquire_settles_witness :
  let props := sample_props Undefined (Some 2) in
  (generator_of props = Return (JSON_stringify_locked true) /\
   store_free (@predicate_of sample_runtime props)) /\
  settles_within 8 (@S3Lock.acquireLock sample_runtime props).
Proof.
  intros props.
  assert (Hfree : store_free (@predicate_of sample_runtime props))
    by exact (@defaultConditional_store_free sample_runtime).
  split; [split; [reflexivity|exact Hfree]|].
  exact (@acquire_settles_within sample_runtime props (JSON_stringify_locked true)
           eq_refl Hfree).
Defined.
